(** * robotica/ler-serial.js: the serial-to-HTTP forwarder

    A shallow embedding of [src/robotica/ler-serial.js].  The script reads
    newline-delimited JSON from a serial port and POSTs every record, enriched
    with two provenance fields, to an HTTP endpoint.  Everything the script
    does to the outside world (console, timers, the serial port, axios, the
    clock, [process.exit]) is an event of an interaction tree; the async
    functions of the script are trees over these events, and an environment
    (which opens fail, which POSTs fail) gives the events their answers. *)

From Stdlib Require Import ZArith NArith String Ascii List Lia Bool.
From Stdlib Require Import DecimalString DecimalPos DecimalN Sorted Morphisms.
From ITree Require Import ITree ITreeFacts Events.State Events.StateFacts.
From Paco Require Import paco.
From Equations Require Import Equations.
Import ListNotations.
Import ITreeNotations.
Local Open Scope itree_scope.
Local Open Scope Z_scope.

Set Implicit Arguments.
Set Warnings "-register-all".

(* ===================================================================== *)
(** ** JavaScript strings *)
(* ===================================================================== *)

(** A JavaScript string is a sequence of UTF-16 code units. *)
Definition code_unit := N.
Definition jsstring := list code_unit.

(** An ASCII literal as a JavaScript string. *)
Definition js (s : string) : jsstring :=
  List.map N_of_ascii (list_ascii_of_string s).

Fixpoint str_eqb (a b : jsstring) : bool :=
  match a, b with
  | [], [] => true
  | x :: a', y :: b' => N.eqb x y && str_eqb a' b'
  | _, _ => false
  end.

Definition jsstring_eq_dec : forall a b : jsstring, {a = b} + {a <> b} :=
  list_eq_dec N.eq_dec.

(** [!s] on a string: only the empty string is falsy. *)
Definition is_empty (s : jsstring) : bool :=
  match s with [] => true | _ :: _ => false end.

(** [x || d] where [x] is a string or [undefined]. *)
Definition or_default (x : option jsstring) (d : jsstring) : jsstring :=
  match x with
  | Some s => if is_empty s then d else s
  | None => d
  end.

(** ECMAScript WhiteSpace and LineTerminator code points, the ones
    [String.prototype.trim] and [parseInt] strip. *)
Definition is_white_space (c : code_unit) : bool :=
  ((c =? 0x09) || (c =? 0x0A) || (c =? 0x0B) || (c =? 0x0C) || (c =? 0x0D)
   || (c =? 0x20) || (c =? 0xA0) || (c =? 0x1680)
   || ((0x2000 <=? c) && (c <=? 0x200A))
   || (c =? 0x2028) || (c =? 0x2029) || (c =? 0x202F) || (c =? 0x205F)
   || (c =? 0x3000) || (c =? 0xFEFF))%N.

Fixpoint trimStart (s : jsstring) : jsstring :=
  match s with
  | c :: rest => if is_white_space c then trimStart rest else s
  | [] => []
  end.

Definition trimEnd (s : jsstring) : jsstring := rev (trimStart (rev s)).

(** [s.trim()] *)
Definition trim (s : jsstring) : jsstring := trimEnd (trimStart s).

(** Number-to-string of a non-negative integer (array indices, status
    codes): its decimal digits. *)
Definition decimal (n : N) : jsstring :=
  js (NilZero.string_of_uint (N.to_uint n)).

Definition is_digit (c : code_unit) : bool := ((0x30 <=? c) && (c <=? 0x39))%N.

(** ASCII case folding, which is all the [i] flag of a non-unicode regular
    expression does to a pattern of ASCII letters: a code unit above 127 is
    never canonicalised to an ASCII one. *)
Definition ascii_upper (c : code_unit) : code_unit :=
  (if (0x61 <=? c) && (c <=? 0x7A) then c - 0x20 else c)%N.

Fixpoint starts_with_ci (pat s : jsstring) : bool :=
  match pat, s with
  | [], _ => true
  | p :: pat', c :: s' => N.eqb (ascii_upper p) (ascii_upper c) && starts_with_ci pat' s'
  | _ :: _, [] => false
  end.

(** Does [pat] occur somewhere in [s], ignoring ASCII case? *)
Fixpoint contains_ci (pat s : jsstring) : bool :=
  starts_with_ci pat s ||
  match s with
  | [] => false
  | _ :: s' => contains_ci pat s'
  end.

(** [/arduino|wch|usb/i.test(s)] *)
Definition re_arduino (s : jsstring) : bool :=
  contains_ci (js "arduino") s || contains_ci (js "wch") s || contains_ci (js "usb") s.

(** [/^COM\d+$/i.test(s)] *)
Definition re_com (s : jsstring) : bool :=
  starts_with_ci (js "COM") s &&
  match skipn 3 s with
  | [] => false
  | ds => forallb is_digit ds
  end.

(* ===================================================================== *)
(** ** Numbers the script computes with *)
(* ===================================================================== *)

(** What [parseInt] returns: an integer or [NaN].  (Rounding to binary64,
    which only touches integers beyond 2^53, is left out.) *)
Variant jsnum := NaN | Num (z : Z).

Definition digit_value (c : code_unit) : Z := Z.of_N (c - 0x30).

Fixpoint take_digits (s : jsstring) : jsstring :=
  match s with
  | c :: rest => if is_digit c then c :: take_digits rest else []
  | [] => []
  end.

Definition digits_value (ds : jsstring) : Z :=
  fold_left (fun acc c => 10 * acc + digit_value c) ds 0.

(** [parseInt(s, 10)]: leading white space is skipped, then an optional
    sign, then the longest run of decimal digits; no digit gives [NaN]. *)
Definition parseInt (s : jsstring) : jsnum :=
  let s1 := trimStart s in
  let '(sign, s2) :=
    match s1 with
    | c :: rest =>
        if (c =? 0x2D)%N then (-1, rest)
        else if (c =? 0x2B)%N then (1, rest)
        else (1, s1)
    | [] => (1, s1)
    end in
  match take_digits s2 with
  | [] => NaN
  | ds => Num (sign * digits_value ds)
  end.

(* ===================================================================== *)
(** ** JSON values and the object literal of the data handler *)
(* ===================================================================== *)

(** The values [JSON.parse] can return.  A number is carried as the literal
    that denotes it: the script forwards numbers and never computes with
    them.  An object is the list of its own properties, one entry per key,
    in the order they were created.  (Enumeration moves the keys that are
    array indices to the front; the script never enumerates a record, so
    that reordering is left out.) *)
Inductive value :=
| VNull
| VBool (b : bool)
| VNum (literal : jsstring)
| VStr (s : jsstring)
| VArr (elems : list value)
| VObj (props : list (jsstring * value)).

Definition properties := list (jsstring * value).

Definition keys (ps : properties) : list jsstring := List.map fst ps.

(** [o[k]] on a property list. *)
Fixpoint get (k : jsstring) (ps : properties) : option value :=
  match ps with
  | [] => None
  | (k', v) :: rest => if str_eqb k k' then Some v else get k rest
  end.

(** CreateDataProperty: an existing key keeps its place and takes the new
    value, a new key is added at the end. *)
Fixpoint define (k : jsstring) (v : value) (ps : properties) : properties :=
  match ps with
  | [] => [(k, v)]
  | (k', v') :: rest =>
      if str_eqb k k' then (k, v) :: rest else (k', v') :: define k v rest
  end.

Fixpoint indexed_from (i : N) (vs : list value) : properties :=
  match vs with
  | [] => []
  | v :: rest => (decimal i, v) :: indexed_from (N.succ i) rest
  end.

(** The own enumerable properties a spread [...v] copies: those of an
    object; the elements of an array under their indices; the code units
    of a string under their indices; nothing for [null], a boolean or a
    number. *)
Definition own_props (v : value) : properties :=
  match v with
  | VObj props => props
  | VArr elems => indexed_from 0 elems
  | VStr s => indexed_from 0 (List.map (fun c => VStr [c]) s)
  | VNull | VBool _ | VNum _ => []
  end.

(** CopyDataProperties(target, source) of a spread element. *)
Definition spread (target source : properties) : properties :=
  fold_left (fun acc kv => define (fst kv) (snd kv) acc) source target.

Definition INGESTED_AT : jsstring := js "_ingested_at".
Definition SOURCE : jsstring := js "_source".

(** The object literal of the data handler,
    [{ ...payload, _ingested_at: iso, _source: "arduino-serial" }],
    evaluated left to right into a fresh object. *)
Definition enriched (payload : value) (iso : jsstring) : value :=
  VObj (define SOURCE (VStr (js "arduino-serial"))
         (define INGESTED_AT (VStr iso)
           (spread [] (own_props payload)))).

Definition fields (v : value) : properties :=
  match v with VObj ps => ps | _ => [] end.

(** The values that are not objects or arrays. *)
Definition primitive (v : value) : bool :=
  match v with
  | VNull | VBool _ | VNum _ | VStr _ => true
  | VArr _ | VObj _ => false
  end.

(* ===================================================================== *)
(** ** The runtime and the libraries the script calls *)
(* ===================================================================== *)

(** A JavaScript [Error]: [err.message], and [err.code] where the library
    sets one. *)
Record error := { err_code : option jsstring; err_message : jsstring }.

(** What is built into the platform or into axios and not written in the
    script: [JSON.parse] ([None] when it throws a SyntaxError),
    [Date.prototype.toISOString] on a time value in milliseconds, and the
    errors with which axios rejects a response whose status
    [validateStatus] refuses and a request that ran into its timeout. *)
Class Runtime := {
  JSON_parse : jsstring -> option value;
  toISOString : Z -> jsstring;
  status_error : Z -> error;
  timeout_error : Z -> error
}.

(** An entry of [SerialPort.list()]. *)
Record PortInfo := {
  path : jsstring;
  manufacturer : option jsstring;
  friendlyName : option jsstring
}.

(** The object [CONFIG]. *)
Record Config := {
  SERIAL_PORT : jsstring;
  SERIAL_BAUD : jsnum;
  API_URL : jsstring;
  LINE_DELIMITER : jsstring;
  CONNECT_RETRY_MS : Z;
  POST_TIMEOUT_MS : Z;
  MAX_POST_RETRIES : Z
}.

(** The three variables of [process.env] the script reads. *)
Record ProcessEnv := {
  env_SERIAL_PORT : option jsstring;
  env_SERIAL_BAUD : option jsstring;
  env_API_URL : option jsstring
}.

Definition CONFIG (env : ProcessEnv) : Config := {|
  SERIAL_PORT := or_default (env_SERIAL_PORT env) (js "auto");
  SERIAL_BAUD := parseInt (or_default (env_SERIAL_BAUD env) (js "115200"));
  API_URL := or_default (env_API_URL env) (js "http://127.0.0.1:8000/telemetry");
  LINE_DELIMITER := [0x0A%N];
  CONNECT_RETRY_MS := 3000;
  POST_TIMEOUT_MS := 5000;
  MAX_POST_RETRIES := 3
|}.

(* ===================================================================== *)
(** ** Events *)
(* ===================================================================== *)

(** A [SerialPort] or parser object, by identity. *)
Definition handle := nat.

Variant level := Log | Warn | Error.

(** The lines the script prints, with the values interpolated in them. *)
Variant message :=
| MsgOpenFailed (path m : jsstring)          (* [serial] Failed to open <path>: <message> *)
| MsgOpened (path : jsstring) (baud : jsnum) (* [serial] Opened <path> @ <baud> baud *)
| MsgRetryOpening (ms : Z)                   (* [serial] Retry opening in <ms> ms... *)
| MsgPortClosed                              (* [serial] Port closed. Reconnecting... *)
| MsgSerialError (m : jsstring)              (* [serial] Error: <message> *)
| MsgInvalidJson (trimmed : jsstring)        (* [parse] Invalid JSON line, skipping: <line> *)
| MsgPostRetrying (why : jsstring) (wait retriesLeft : Z)
                                             (* [post] Error (<why>). Retrying in <wait> ms... (<n> left) *)
| MsgPostFailed (m : jsstring)               (* [post] Failed after retries: <message> *)
| MsgSigint                                  (* [sys] Caught SIGINT. Closing... *)
| MsgUnhandledRejection (e : error)          (* [sys] Unhandled rejection: <err> *)
| MsgUncaughtException (e : error)           (* [sys] Uncaught exception: <err> *)
| MsgStarting                                (* [sys] Starting serial -> FastAPI forwarder *)
| MsgCfgUrl (url : jsstring)                 (* [cfg] API_URL=<url> *)
| MsgCfgSerial (port : jsstring) (baud : jsnum). (* [cfg] SERIAL_PORT=<port> ..., BAUD=<baud> *)

Variant event_name := EvClose | EvError | EvData.

(** How one HTTP exchange ends, before axios judges the status. *)
Variant post_outcome :=
| Responded (status : Z)
| TransportError (e : error)
| TimedOut.

Variant ioE : Type -> Type :=
| Console (l : level) (m : message) : ioE unit
| Sleep (ms : Z) : ioE unit                       (* await sleep(ms) *)
| SerialList : ioE (error + list PortInfo)        (* await SerialPort.list() *)
| NewSerialPort (p : jsstring) (baudRate : jsnum) : ioE (error + handle)
                                                  (* new SerialPort({...}); inl: it threw *)
| PortOpen (sp : handle) : ioE (option error)     (* sp.open(cb): what cb receives *)
| Pipe (sp : handle) (delimiter : jsstring) : ioE handle
                                                  (* sp.pipe(new ReadlineParser({delimiter})) *)
| On (target : handle) (ev : event_name) : ioE unit (* target.on(ev, handler) *)
| Close (sp : handle) : ioE unit                  (* sp.close(...) *)
| IsOpen (sp : handle) : ioE bool                 (* sp.isOpen *)
| GetPort : ioE (option handle)                   (* the global `port`; None is null *)
| SetPort (sp : handle) : ioE unit
| GetParser : ioE (option handle)                 (* the global `parser` *)
| SetParser (ps : handle) : ioE unit
| NewDate : ioE Z                                 (* new Date(): its time value *)
| HttpPost (url : jsstring) (data : value) (timeout : Z) (contentType : jsstring)
    : ioE post_outcome                            (* the request of axios.post *)
| ProcessExit (code : Z) : ioE void.              (* process.exit(code) *)

(** A computation that may throw (or a promise that may reject). *)
Definition throws (A : Type) : Type := (error + A)%type.

Definition try_bind {A B} (t : itree ioE (throws A)) (k : A -> itree ioE (throws B))
  : itree ioE (throws B) :=
  r <- t;;
  match r with
  | inl e => Ret (inl e)
  | inr a => k a
  end.

Notation "x <-? t ;; k" := (try_bind t (fun x => k))
  (at level 61, t at next level, right associativity) : itree_scope.

Definition log (l : level) (m : message) : itree ioE unit := ITree.trigger (Console l m).

(** Dereferencing [null] throws a TypeError (the text is the engine's). *)
Definition TypeError_null : error :=
  {| err_code := None; err_message := js "Cannot read properties of null" |}.

Definition deref (read : ioE (option handle)) : itree ioE (throws handle) :=
  r <- ITree.trigger read;;
  match r with
  | Some h => Ret (inr h)
  | None => Ret (inl TypeError_null)
  end.

(* ===================================================================== *)
(** ** The script *)
(* ===================================================================== *)

Section Script.

Context {rt : Runtime}.
Variable cfg : Config.

(** [autoDetectPort()].  [p.path || ""] is [p.path], a string. *)
Definition looks_like_arduino (p : PortInfo) : bool :=
  re_arduino (or_default (manufacturer p) [] ++ js " " ++
              or_default (friendlyName p) [] ++ js " " ++ path p).

Definition pick_port (ports : list PortInfo) : jsstring :=
  match find looks_like_arduino ports with
  | Some preferred => path preferred
  | None =>
      match find (fun p => re_com (path p)) ports with
      | Some com => path com
      | None => js "COM3"
      end
  end.

Definition autoDetectPort : itree ioE jsstring :=
  r <- ITree.trigger SerialList;;
  match r with
  | inr ports => Ret (pick_port ports)
  | inl _ => Ret (js "COM3")
  end.

(** [openPort()].  With [autoOpen: false] the constructor never calls the
    callback it is given, so that callback's log line has no event here; a
    constructor that throws rejects the promise without a log. *)
Definition openPort : itree ioE (throws handle) :=
  p <- (if str_eqb (SERIAL_PORT cfg) (js "auto")
        then autoDetectPort
        else Ret (SERIAL_PORT cfg));;
  sp <-? ITree.trigger (NewSerialPort p (SERIAL_BAUD cfg));;
  err <- ITree.trigger (PortOpen sp);;
  match err with
  | Some e =>
      log Error (MsgOpenFailed p (err_message e));;
      Ret (inl e)
  | None =>
      log Log (MsgOpened p (SERIAL_BAUD cfg));;
      Ret (inr sp)
  end.

(** [wireHandlers()]: the three [.on] calls, on the globals [port] and
    [parser].  What the handlers do is [onClose], [onError] and [onData]
    below. *)
Definition wireHandlers : itree ioE (throws unit) :=
  sp <-? deref GetPort;;
  ITree.trigger (On sp EvClose);;
  sp <-? deref GetPort;;
  ITree.trigger (On sp EvError);;
  ps <-? deref GetParser;;
  ITree.trigger (On ps EvData);;
  Ret (inr tt).

(** The [try] block of [ensureOpen]. *)
Definition open_and_wire : itree ioE (throws unit) :=
  sp <-? openPort;;
  ITree.trigger (SetPort sp);;
  sp <-? deref GetPort;;
  ps <- ITree.trigger (Pipe sp (LINE_DELIMITER cfg));;
  ITree.trigger (SetParser ps);;
  wireHandlers.

(** One turn of the [while (true)] of [ensureOpen]: [inr] is [break],
    [inl] goes round again. *)
Definition ensureOpen_body (_ : unit) : itree ioE (unit + unit) :=
  r <- open_and_wire;;
  match r with
  | inr _ => Ret (inr tt)
  | inl _ =>
      log Log (MsgRetryOpening (CONNECT_RETRY_MS cfg));;
      ITree.trigger (Sleep (CONNECT_RETRY_MS cfg));;
      Ret (inl tt)
  end.

Definition ensureOpen : itree ioE unit := ITree.iter ensureOpen_body tt.

(** The handler of [port.on("close", ...)].  [ensureOpen] has no way to
    reject, so the [.catch] after it never runs. *)
Definition onClose : itree ioE unit :=
  log Error MsgPortClosed;;
  ITree.trigger (Sleep (CONNECT_RETRY_MS cfg));;
  ensureOpen.

(** The handler of [port.on("error", ...)]; whatever [port.close()]
    throws is swallowed. *)
Definition onError (err : error) : itree ioE unit :=
  log Error (MsgSerialError (err_message err));;
  p <- ITree.trigger GetPort;;
  match p with
  | Some sp => ITree.trigger (Close sp)
  | None => Ret tt
  end.

(** [validateStatus: (s) => s >= 200 && s < 300] *)
Definition validateStatus (s : Z) : bool := (s >=? 200) && (s <? 300).

(** How axios settles the promise of [axios.post]. *)
Definition settle (o : post_outcome) : throws unit :=
  match o with
  | Responded s => if validateStatus s then inr tt else inl (status_error s)
  | TransportError e => inl e
  | TimedOut => inl (timeout_error (POST_TIMEOUT_MS cfg))
  end.

Definition axios_post (data : value) : itree ioE (throws unit) :=
  o <- ITree.trigger (HttpPost (API_URL cfg) data (POST_TIMEOUT_MS cfg)
                               (js "application/json"));;
  Ret (settle o).

(** [postWithRetries(data, retriesLeft)] *)
Equations postWithRetries (data : value) (retriesLeft : Z) : itree ioE (throws unit)
  by wf (Z.to_nat retriesLeft) lt :=
postWithRetries data retriesLeft :=
  (r <- axios_post data;;
   match r with
   | inr _ => Ret (inr tt)
   | inl err =>
       match Z_gt_dec retriesLeft 0 with
       | left _ =>
           let wait := POST_TIMEOUT_MS cfg * (MAX_POST_RETRIES cfg - retriesLeft + 1) in
           log Warn (MsgPostRetrying (or_default (err_code err) (err_message err))
                                     wait retriesLeft);;
           ITree.trigger (Sleep wait);;
           postWithRetries data (retriesLeft - 1)
       | right _ => Ret (inl err)
       end
   end).
Next Obligation. lia. Qed.

(** The handler of [parser.on("data", ...)].  [line] is the string the
    readline parser emits, so [(line || "").toString()] is [line]. *)
Definition onData (line : jsstring) : itree ioE unit :=
  let trimmed := trim line in
  if is_empty trimmed then Ret tt
  else
    match JSON_parse trimmed with
    | None => log Error (MsgInvalidJson trimmed)
    | Some payload =>
        now <- ITree.trigger NewDate;;
        r <- postWithRetries (enriched payload (toISOString now)) (MAX_POST_RETRIES cfg);;
        match r with
        | inr _ => Ret tt
        | inl e => log Error (MsgPostFailed (err_message e))
        end
    end.

(** The handler of [process.on("SIGINT", ...)]. *)
Definition onSIGINT : itree ioE void :=
  log Log MsgSigint;;
  p <- ITree.trigger GetPort;;
  match p with
  | Some sp =>
      b <- ITree.trigger (IsOpen sp);;
      if b : bool then ITree.trigger (Close sp) else Ret tt
  | None => Ret tt
  end;;
  ITree.trigger (ProcessExit 0).

Definition onUnhandledRejection (err : error) : itree ioE unit :=
  log Error (MsgUnhandledRejection err).

Definition onUncaughtException (err : error) : itree ioE unit :=
  log Error (MsgUncaughtException err).

(** [main()] *)
Definition main : itree ioE unit :=
  log Log MsgStarting;;
  log Log (MsgCfgUrl (API_URL cfg));;
  log Log (MsgCfgSerial (SERIAL_PORT cfg) (SERIAL_BAUD cfg));;
  ensureOpen.

End Script.

(** The program: [CONFIG] is built from the environment when the module
    loads, then [main] runs. *)
Definition program (env : ProcessEnv) : itree ioE unit :=
  main (CONFIG env).

(* ===================================================================== *)
(** ** The environment *)
(* ===================================================================== *)

(** How one attempt to open the port ends. *)
Variant open_outcome :=
| CtorThrows (e : error)     (* new SerialPort(...) throws *)
| OpenFails (e : error)      (* the callback of sp.open gets an error *)
| Opens.                     (* the callback of sp.open gets null *)

(** An environment fixes what the world answers: the device list, the fate
    of the k-th attempt to open the port and of the k-th POST (k from 0). *)
Record Environment := {
  devices : error + list PortInfo;
  open_attempt : nat -> open_outcome;
  post_attempt : nat -> post_outcome
}.

(** An event together with the answer it got. *)
Inductive obs : Type :=
| Did : forall {X : Type} (e : ioE X) (answer : X), obs.

(** The state of the process and of the world around it. *)
Record World := {
  g_port : option handle;      (* the global `port` *)
  g_parser : option handle;    (* the global `parser` *)
  fresh : handle;              (* objects created so far *)
  n_opens : nat;               (* attempts to open the port made so far *)
  n_posts : nat;               (* POSTs made so far *)
  clock : Z;                   (* the time, in ms *)
  opened : list handle         (* the ports that are open *)
}.

Definition initial (t0 : Z) : World :=
  {| g_port := None; g_parser := None; fresh := 0%nat; n_opens := 0%nat;
     n_posts := 0%nat; clock := t0; opened := [] |}.

Definition set_port (sp : handle) (w : World) : World :=
  {| g_port := Some sp; g_parser := g_parser w; fresh := fresh w;
     n_opens := n_opens w; n_posts := n_posts w; clock := clock w;
     opened := opened w |}.

Definition set_parser (ps : handle) (w : World) : World :=
  {| g_port := g_port w; g_parser := Some ps; fresh := fresh w;
     n_opens := n_opens w; n_posts := n_posts w; clock := clock w;
     opened := opened w |}.

Definition new_object (w : World) : World :=
  {| g_port := g_port w; g_parser := g_parser w; fresh := S (fresh w);
     n_opens := n_opens w; n_posts := n_posts w; clock := clock w;
     opened := opened w |}.

Definition count_open (w : World) : World :=
  {| g_port := g_port w; g_parser := g_parser w; fresh := fresh w;
     n_opens := S (n_opens w); n_posts := n_posts w; clock := clock w;
     opened := opened w |}.

Definition count_post (w : World) : World :=
  {| g_port := g_port w; g_parser := g_parser w; fresh := fresh w;
     n_opens := n_opens w; n_posts := S (n_posts w); clock := clock w;
     opened := opened w |}.

(** A timer of [ms] milliseconds has fired. *)
Definition advance (ms : Z) (w : World) : World :=
  {| g_port := g_port w; g_parser := g_parser w; fresh := fresh w;
     n_opens := n_opens w; n_posts := n_posts w; clock := clock w + Z.max 0 ms;
     opened := opened w |}.

Definition set_opened (l : list handle) (w : World) : World :=
  {| g_port := g_port w; g_parser := g_parser w; fresh := fresh w;
     n_opens := n_opens w; n_posts := n_posts w; clock := clock w;
     opened := l |}.

(** What a run shows: every event with its answer, as it happens, and the
    end of the process at [process.exit(code)]. *)
Variant outE : Type -> Type :=
| Emit (o : obs) : outE unit
| Halt (code : Z) : outE void.

Definition halt {A} (code : Z) : itree outE A :=
  Vis (Halt code) (fun v : void => match v with end).

(** The run that shows the observations [tr], in order. *)
Fixpoint say (tr : list obs) : itree outE unit :=
  match tr with
  | [] => Ret tt
  | o :: rest => Vis (Emit o) (fun _ => say rest)
  end.

Section Handler.

Variable env : Environment.

(** What each event does to the world, and its answer; [process.exit]
    has none. *)
Definition react {X} (e : ioE X) (w : World) : (World * X) + Z :=
  match e in ioE X return (World * X) + Z with
  | Console l m => inl (w, tt)
  | Sleep ms => inl (advance ms w, tt)
  | SerialList => inl (w, devices env)
  | NewSerialPort p b =>
      match open_attempt env (n_opens w) with
      | CtorThrows e => inl (count_open w, inl e)
      | OpenFails _ | Opens => inl (new_object w, inr (fresh w))
      end
  | PortOpen sp =>
      match open_attempt env (n_opens w) with
      | Opens => inl (set_opened (sp :: opened w) (count_open w), None)
      | OpenFails e | CtorThrows e => inl (count_open w, Some e)
      end
  | Pipe sp d => inl (new_object w, fresh w)
  | On target ev => inl (w, tt)
  | Close sp => inl (set_opened (remove Nat.eq_dec sp (opened w)) w, tt)
  | IsOpen sp => inl (w, existsb (Nat.eqb sp) (opened w))
  | GetPort => inl (w, g_port w)
  | SetPort sp => inl (set_port sp w, tt)
  | GetParser => inl (w, g_parser w)
  | SetParser ps => inl (set_parser ps w, tt)
  | NewDate => inl (w, clock w)
  | HttpPost url data timeout ct => inl (count_post w, post_attempt env (n_posts w))
  | ProcessExit code => inr code
  end.

Definition handle_io : ioE ~> Monads.stateT World (itree outE) :=
  fun X e w =>
    match react e w with
    | inl (w', x) => Vis (Emit (Did e x)) (fun _ => Ret (w', x))
    | inr code => halt code
    end.

(** Running a tree of the script in a world. *)
Definition exec {A} (t : itree ioE A) (w : World) : itree outE (World * A) :=
  interp_state handle_io t w.

End Handler.

(** How a run stands after at most [fuel] steps: what it has shown, and
    whether it returned, exited, or is still going. *)
Variant ending (A : Type) :=
| Returned (w : World) (a : A)
| Exited (code : Z)
| Running.
Arguments Returned {A} w a.
Arguments Exited {A} code.
Arguments Running {A}.

Fixpoint run_for {A} (fuel : nat) (t : itree outE (World * A)) : list obs * ending A :=
  match fuel with
  | O => ([], Running)
  | S n =>
      match observe t with
      | RetF (w, a) => ([], Returned w a)
      | TauF t' => run_for n t'
      | VisF e k =>
          match e in outE X return (X -> itree outE (World * A)) -> list obs * ending A with
          | Emit o => fun k => let (tr, r) := run_for n (k tt) in (o :: tr, r)
          | Halt code => fun _ => ([], Exited code)
          end k
      end
  end.

(* --------------------------------------------------------------------- *)
(** *** Reading a trace *)

Definition sleep_of (o : obs) : list Z :=
  match o with
  | Did e _ => match e with Sleep ms => [ms] | _ => [] end
  end.

(** The waits, in order. *)
Definition sleeps (tr : list obs) : list Z := flat_map sleep_of tr.

Definition is_post (o : obs) : bool :=
  match o with
  | Did e _ => match e with HttpPost _ _ _ _ => true | _ => false end
  end.

(** The POST requests, in order. *)
Definition posts (tr : list obs) : list obs := filter is_post tr.

Definition is_open_attempt (o : obs) : bool :=
  match o with
  | Did e _ => match e with NewSerialPort _ _ => true | _ => false end
  end.

(** The attempts to open the port: each starts by constructing one. *)
Definition open_attempts (tr : list obs) : list obs := filter is_open_attempt tr.

(** A parser being created or a handler being attached. *)
Definition is_wiring (o : obs) : bool :=
  match o with
  | Did e _ => match e with Pipe _ _ | On _ _ => true | _ => false end
  end.

(** The rhythm of a run: attempts to open the port, POSTs, and the waits
    between them. *)
Variant beat := OpenAttempt | Posted | Waited (ms : Z).

Definition beat_of (o : obs) : list beat :=
  match o with
  | Did e _ =>
      match e with
      | NewSerialPort _ _ => [OpenAttempt]
      | HttpPost _ _ _ _ => [Posted]
      | Sleep ms => [Waited ms]
      | _ => []
      end
  end.

Definition timeline (tr : list obs) : list beat := flat_map beat_of tr.

(** The connection states of the specification, as the trace shows them:
    constructing the port object enters [Connecting]; a constructor that
    throws or an open that fails falls back to [Disconnected]; an open that
    succeeds enters [Open].  ([Faulted] is where the specification puts a
    port that has failed while open; the loop of [ensureOpen] never
    passes through it.) *)
Variant ConnectionState := Disconnected | Connecting | Open | Faulted.

Definition state_change (o : obs) : list ConnectionState :=
  match o with
  | Did e a =>
      match e in ioE X return X -> list ConnectionState with
      | NewSerialPort _ _ =>
          fun a => match a with
                   | inr _ => [Connecting]
                   | inl _ => [Connecting; Disconnected]
                   end
      | PortOpen _ =>
          fun a => match a with
                   | Some _ => [Disconnected]
                   | None => [Open]
                   end
      | _ => fun _ => []
      end a
  end.

Definition state_changes (tr : list obs) : list ConnectionState :=
  flat_map state_change tr.

(* ===================================================================== *)
(** ** What a run is expected to show *)
(* ===================================================================== *)

Definition open_fails (o : open_outcome) : bool :=
  match o with Opens => false | CtorThrows _ | OpenFails _ => true end.

Section Expected.

Variable env : Environment.
Context {rt : Runtime}.
Variable cfg : Config.

(** [t], run in world [w], shows [tr] and returns [a] in world [w']. *)
Definition runs {A} (t : itree ioE A) (w : World) (tr : list obs) (w' : World) (a : A)
  : Prop :=
  exec env t w ≈ (say tr;; Ret (w', a)).

(* --------------------------------------------------------------------- *)
(** *** One turn of the loop of [ensureOpen] *)

Definition is_auto : bool := str_eqb (SERIAL_PORT cfg) (js "auto").

Definition chosen_path : jsstring :=
  if is_auto
  then match devices env with inr ports => pick_port ports | inl _ => js "COM3" end
  else SERIAL_PORT cfg.

Definition discovery : list obs :=
  if is_auto then [Did SerialList (devices env)] else [].

Definition attempt_trace (o : open_outcome) (h : handle) : list obs :=
  let p := chosen_path in
  match o with
  | CtorThrows e => [Did (NewSerialPort p (SERIAL_BAUD cfg)) (inl e)]
  | OpenFails e =>
      [Did (NewSerialPort p (SERIAL_BAUD cfg)) (inr h);
       Did (PortOpen h) (Some e);
       Did (Console Error (MsgOpenFailed p (err_message e))) tt]
  | Opens =>
      [Did (NewSerialPort p (SERIAL_BAUD cfg)) (inr h);
       Did (PortOpen h) None;
       Did (Console Log (MsgOpened p (SERIAL_BAUD cfg))) tt]
  end.

Definition attempt_world (o : open_outcome) (w : World) : World :=
  match o with
  | CtorThrows _ => count_open w
  | OpenFails _ => count_open (new_object w)
  | Opens => set_opened (fresh w :: opened w) (count_open (new_object w))
  end.

Definition attempt_result (o : open_outcome) (h : handle) : throws handle :=
  match o with
  | CtorThrows e | OpenFails e => inl e
  | Opens => inr h
  end.

(** What a turn does once the port [h] has opened: the globals are set,
    the parser is made, the three handlers are attached. *)
Definition wiring (h : handle) : list obs :=
  [Did (SetPort h) tt;
   Did GetPort (Some h);
   Did (Pipe h (LINE_DELIMITER cfg)) (S h);
   Did (SetParser (S h)) tt;
   Did GetPort (Some h);
   Did (On h EvClose) tt;
   Did GetPort (Some h);
   Did (On h EvError) tt;
   Did GetParser (Some (S h));
   Did (On (S h) EvData) tt].

(** What a turn does after a failure. *)
Definition retry_wait : list obs :=
  [Did (Console Log (MsgRetryOpening (CONNECT_RETRY_MS cfg))) tt;
   Did (Sleep (CONNECT_RETRY_MS cfg)) tt].

Definition turn_trace (w : World) : list obs :=
  let o := open_attempt env (n_opens w) in
  discovery ++ attempt_trace o (fresh w) ++
  match o with
  | Opens => wiring (fresh w)
  | CtorThrows _ | OpenFails _ => retry_wait
  end.

Definition turn_world (w : World) : World :=
  let o := open_attempt env (n_opens w) in
  match o with
  | Opens => set_parser (S (fresh w)) (new_object (set_port (fresh w) (attempt_world o w)))
  | CtorThrows _ | OpenFails _ => advance (CONNECT_RETRY_MS cfg) (attempt_world o w)
  end.

(** [n] turns in a row. *)
Fixpoint turns_trace (n : nat) (w : World) : list obs :=
  match n with
  | O => []
  | S n' => turn_trace w ++ turns_trace n' (turn_world w)
  end.

Fixpoint after_turns (n : nat) (w : World) : World :=
  match n with
  | O => w
  | S n' => after_turns n' (turn_world w)
  end.

(* --------------------------------------------------------------------- *)
(** *** A delivery *)

Definition post_of (data : value) (o : post_outcome) : obs :=
  Did (HttpPost (API_URL cfg) data (POST_TIMEOUT_MS cfg) (js "application/json")) o.

(** The wait before the retry that follows a failure with [retriesLeft]
    retries left. *)
Definition backoff (retriesLeft : Z) : Z :=
  POST_TIMEOUT_MS cfg * (MAX_POST_RETRIES cfg - retriesLeft + 1).

(** [postWithRetries(data, retriesLeft)] seen from outside; [n] is the
    number of retries it may still make, [Z.to_nat retriesLeft]. *)
Fixpoint delivery (data : value) (n : nat) (retriesLeft : Z) (w : World)
  : list obs * World * throws unit :=
  let o := post_attempt env (n_posts w) in
  match settle cfg o with
  | inr _ => ([post_of data o], count_post w, inr tt)
  | inl err =>
      match n with
      | O => ([post_of data o], count_post w, inl err)
      | S n' =>
          let wait := backoff retriesLeft in
          let '(tr, w', r) :=
            delivery data n' (retriesLeft - 1) (advance wait (count_post w)) in
          (post_of data o
             :: Did (Console Warn (MsgPostRetrying (or_default (err_code err) (err_message err))
                                                   wait retriesLeft)) tt
             :: Did (Sleep wait) tt
             :: tr,
           w', r)
      end
  end.

(** The three lines [main] prints first. *)
Definition banner : list obs :=
  [Did (Console Log MsgStarting) tt;
   Did (Console Log (MsgCfgUrl (API_URL cfg))) tt;
   Did (Console Log (MsgCfgSerial (SERIAL_PORT cfg) (SERIAL_BAUD cfg))) tt].

(** What the data handler logs when a delivery has ended. *)
Definition verdict (r : throws unit) : list obs :=
  match r with
  | inr _ => []
  | inl e => [Did (Console Error (MsgPostFailed (err_message e))) tt]
  end.

End Expected.

(* ===================================================================== *)
(** ** What the patterns of [autoDetectPort] mean *)
(* ===================================================================== *)

(** Equal up to the case of ASCII letters. *)
Definition same_ci (a b : jsstring) : Prop :=
  List.map ascii_upper a = List.map ascii_upper b.

(** [word] occurs in [s], in any case. *)
Definition mentions (word s : jsstring) : Prop :=
  exists pre mid post, s = pre ++ mid ++ post /\ same_ci mid word.

(** COM, in any case, followed by one or more digits and nothing else. *)
Definition com_name (s : jsstring) : Prop :=
  exists prefix ds,
    s = prefix ++ ds /\ same_ci prefix (js "COM") /\ ds <> []
    /\ Forall (fun c => (0x30 <= c <= 0x39)%N) ds.

(** [d] is the first element of [l] that satisfies [p]. *)
Definition first_match {A} (p : A -> bool) (l : list A) (d : A) : Prop :=
  exists before after,
    l = before ++ d :: after /\ p d = true /\ Forall (fun x => p x = false) before.

(* ===================================================================== *)
(** ** Where the process can end *)
(* ===================================================================== *)

Definition is_exit {X} (e : ioE X) : bool :=
  match e with ProcessExit _ => true | _ => false end.

(** Whatever the answers, [t] never reaches [process.exit]. *)
Variant exit_freeF {R} (r : itree ioE R -> Prop) : itree' ioE R -> Prop :=
| ef_ret (a : R) : exit_freeF r (RetF a)
| ef_tau (t : itree ioE R) : r t -> exit_freeF r (TauF t)
| ef_vis {X} (e : ioE X) (k : X -> itree ioE R) :
    is_exit e = false -> (forall x, r (k x)) -> exit_freeF r (VisF e k).

Definition exit_free_ {R} (r : itree ioE R -> Prop) (t : itree ioE R) : Prop :=
  exit_freeF r (observe t).

Definition never_exits {R} (t : itree ioE R) : Prop := paco1 (@exit_free_ R) bot1 t.

(** Whatever the answers, [t] ends in [process.exit(code)], and in no
    other exit. *)
Inductive exits_with {R} (code : Z) : itree ioE R -> Prop :=
| ew_exit t k :
    observe t = VisF (ProcessExit code) k -> exits_with code t
| ew_tau t t' :
    observe t = TauF t' -> exits_with code t' -> exits_with code t
| ew_vis t X (e : ioE X) k :
    observe t = VisF e k -> is_exit e = false ->
    (forall x, exits_with code (k x)) -> exits_with code t.

(** What a node of a run shows: an observation, or the exit code. *)
Definition shown {X} (e : outE X) : obs + Z :=
  match e with
  | Emit o => inl o
  | Halt code => inr code
  end.

(** A run that ends in a non-zero exit without having tried to open the
    port. *)
Definition exits_nonzero_before_connecting {A} (t : itree outE (World * A)) : Prop :=
  exists tr code, code <> 0 /\ open_attempts tr = [] /\ t ≈ (say tr;; halt code).

(* ===================================================================== *)
(** ** More ways to read a line, a trace and a world *)
(* ===================================================================== *)

(** Only white space. *)
Definition blank (s : jsstring) : bool := forallb is_white_space s.

(** An event on the serial port, or on the globals that hold it. *)
Definition is_serial (o : obs) : bool :=
  match o with
  | Did e _ =>
      match e with
      | SerialList | NewSerialPort _ _ | PortOpen _ | Pipe _ _ | On _ _ | Close _
      | IsOpen _ | GetPort | SetPort _ | GetParser | SetParser _ => true
      | _ => false
      end
  end.

(** The time a list of waits takes: a timer of a negative duration fires
    at once. *)
Definition elapsed (waits : list Z) : Z :=
  fold_right (fun ms acc => Z.max 0 ms + acc) 0 waits.

(** Is the port [sp] open in [w]? *)
Definition is_open (sp : handle) (w : World) : bool :=
  existsb (Nat.eqb sp) (opened w).

Definition error_line (o : obs) : list message :=
  match o with
  | Did e _ => match e with Console Error m => [m] | _ => [] end
  end.

(** The lines printed with [console.error], in order. *)
Definition error_lines (tr : list obs) : list message := flat_map error_line tr.

Definition close_of (o : obs) : list handle :=
  match o with
  | Did e _ => match e with Close sp => [sp] | _ => [] end
  end.

(** The ports [close()] was called on, in order. *)
Definition closes (tr : list obs) : list handle := flat_map close_of tr.

Definition path_of (o : obs) : list jsstring :=
  match o with
  | Did e _ => match e with NewSerialPort p _ => [p] | _ => [] end
  end.

(** The paths the script tried to open, in order. *)
Definition paths_tried (tr : list obs) : list jsstring := flat_map path_of tr.

(** A call of [SerialPort.list()]. *)
Definition is_listing (o : obs) : bool :=
  match o with
  | Did e _ => match e with SerialList => true | _ => false end
  end.



(** Does [s] go on with a decimal digit? *)
Definition starts_with_digit (s : jsstring) : bool :=
  match s with
  | c :: _ => is_digit c
  | [] => false
  end.

(* ===================================================================== *)
(** ** A reference runtime *)
(* ===================================================================== *)

(** The runtime of Node.js and axios, written out for running the model on
    concrete lines: the JSON grammar of ECMA-404 as [JSON.parse] reads it,
    the date format of [toISOString], and the two errors of axios.  The
    theorems below hold for every runtime; this one serves the examples. *)

(** An ASCII literal in which ['] stands for the double quote. *)
Definition jsq (s : string) : jsstring :=
  List.map (fun c => if (c =? 0x27)%N then 0x22%N else c) (js s).

Definition json_ws (c : code_unit) : bool :=
  ((c =? 0x20) || (c =? 0x09) || (c =? 0x0A) || (c =? 0x0D))%N.

Fixpoint skip_ws (s : jsstring) : jsstring :=
  match s with
  | c :: rest => if json_ws c then skip_ws rest else s
  | [] => []
  end.

Definition hex_value (c : code_unit) : option N :=
  (if (0x30 <=? c) && (c <=? 0x39) then Some (c - 0x30)
   else if (0x41 <=? c) && (c <=? 0x46) then Some (c - 0x41 + 10)
   else if (0x61 <=? c) && (c <=? 0x66) then Some (c - 0x61 + 10)
   else None)%N.

Definition hex4 (a b c d : code_unit) : option code_unit :=
  match hex_value a, hex_value b, hex_value c, hex_value d with
  | Some x, Some y, Some z, Some t => Some (((x * 16 + y) * 16 + z) * 16 + t)%N
  | _, _, _, _ => None
  end.

(** The code unit a one-letter escape stands for. *)
Definition unescape (c : code_unit) : option code_unit :=
  (if c =? 0x22 then Some 0x22          (* quote *)
   else if c =? 0x5C then Some 0x5C     (* backslash *)
   else if c =? 0x2F then Some 0x2F     (* slash *)
   else if c =? 0x62 then Some 0x08     (* b *)
   else if c =? 0x66 then Some 0x0C     (* f *)
   else if c =? 0x6E then Some 0x0A     (* n *)
   else if c =? 0x72 then Some 0x0D     (* r *)
   else if c =? 0x74 then Some 0x09     (* t *)
   else None)%N.

(** A string, from after its opening quote: its value and what follows
    the closing quote. *)
Fixpoint json_string (s : jsstring) (acc : jsstring) : option (jsstring * jsstring) :=
  match s with
  | [] => None
  | c :: rest =>
      if (c =? 0x22)%N then Some (rev acc, rest)
      else if (c =? 0x5C)%N then
        match rest with
        | [] => None
        | e :: rest' =>
            if (e =? 0x75)%N then
              match rest' with
              | h1 :: h2 :: h3 :: h4 :: rest'' =>
                  match hex4 h1 h2 h3 h4 with
                  | Some u => json_string rest'' (u :: acc)
                  | None => None
                  end
              | _ => None
              end
            else
              match unescape e with
              | Some u => json_string rest' (u :: acc)
              | None => None
              end
        end
      else if (c <? 0x20)%N then None
      else json_string rest (c :: acc)
  end.

(** One or more digits. *)
Definition json_digits (s : jsstring) : option (jsstring * jsstring) :=
  match take_digits s with
  | [] => None
  | ds => Some (ds, skipn (List.length ds) s)
  end.

(** A number: its literal and what follows it. *)
Definition json_number (s : jsstring) : option (jsstring * jsstring) :=
  let '(sign, s1) :=
    match s with
    | c :: rest => if (c =? 0x2D)%N then ([c], rest) else ([], s)
    | [] => ([], s)
    end in
  match
    match s1 with
    | c :: rest =>
        if (c =? 0x30)%N then Some ([c], rest)
        else json_digits s1
    | [] => None
    end
  with
  | None => None
  | Some (int, s2) =>
      match
        match s2 with
        | c :: rest =>
            if (c =? 0x2E)%N then
              match json_digits rest with
              | Some (ds, s3) => Some (c :: ds, s3)
              | None => None
              end
            else Some ([], s2)
        | [] => Some ([], s2)
        end
      with
      | None => None
      | Some (frac, s3) =>
          match
            match s3 with
            | c :: rest =>
                if ((c =? 0x65) || (c =? 0x45))%N then
                  let '(esign, s4) :=
                    match rest with
                    | d :: rest' =>
                        if ((d =? 0x2B) || (d =? 0x2D))%N then ([d], rest') else ([], rest)
                    | [] => ([], rest)
                    end in
                  match json_digits s4 with
                  | Some (ds, s5) => Some (c :: esign ++ ds, s5)
                  | None => None
                  end
                else Some ([], s3)
            | [] => Some ([], s3)
            end
          with
          | None => None
          | Some (exp, s4) => Some (sign ++ int ++ frac ++ exp, s4)
          end
      end
  end.

Definition strip_prefix (p s : jsstring) : option jsstring :=
  if str_eqb p (firstn (List.length p) s) then Some (skipn (List.length p) s) else None.

(** A value, the elements of an array after its [[], and the members of
    an object after its [{]; each gives what it read and what follows.  A
    key that comes twice keeps its first place and its last value. *)
Fixpoint json_value (fuel : nat) (s : jsstring) : option (value * jsstring) :=
  match fuel with
  | O => None
  | S n =>
      match skip_ws s with
      | [] => None
      | c :: rest =>
          if (c =? 0x7B)%N then
            match skip_ws rest with
            | c' :: rest' =>
                if (c' =? 0x7D)%N then Some (VObj [], rest')
                else json_members n (skip_ws rest) []
            | [] => None
            end
          else if (c =? 0x5B)%N then
            match skip_ws rest with
            | c' :: rest' =>
                if (c' =? 0x5D)%N then Some (VArr [], rest')
                else json_elements n (skip_ws rest) []
            | [] => None
            end
          else if (c =? 0x22)%N then
            match json_string rest [] with
            | Some (str, rest') => Some (VStr str, rest')
            | None => None
            end
          else if (c =? 0x2D)%N || is_digit c then
            match json_number (c :: rest) with
            | Some (lit, rest') => Some (VNum lit, rest')
            | None => None
            end
          else
            match strip_prefix (js "true") (c :: rest),
                  strip_prefix (js "false") (c :: rest),
                  strip_prefix (js "null") (c :: rest) with
            | Some rest', _, _ => Some (VBool true, rest')
            | _, Some rest', _ => Some (VBool false, rest')
            | _, _, Some rest' => Some (VNull, rest')
            | None, None, None => None
            end
      end
  end
with json_elements (fuel : nat) (s : jsstring) (acc : list value)
  : option (value * jsstring) :=
  match fuel with
  | O => None
  | S n =>
      match json_value n s with
      | None => None
      | Some (v, rest) =>
          match skip_ws rest with
          | c :: rest' =>
              if (c =? 0x2C)%N then json_elements n rest' (v :: acc)
              else if (c =? 0x5D)%N then Some (VArr (rev (v :: acc)), rest')
              else None
          | [] => None
          end
      end
  end
with json_members (fuel : nat) (s : jsstring) (acc : properties)
  : option (value * jsstring) :=
  match fuel with
  | O => None
  | S n =>
      match skip_ws s with
      | c :: rest =>
          if (c =? 0x22)%N then
            match json_string rest [] with
            | None => None
            | Some (k, rest1) =>
                match skip_ws rest1 with
                | c1 :: rest2 =>
                    if (c1 =? 0x3A)%N then
                      match json_value n rest2 with
                      | None => None
                      | Some (v, rest3) =>
                          match skip_ws rest3 with
                          | c3 :: rest4 =>
                              if (c3 =? 0x2C)%N then json_members n rest4 (define k v acc)
                              else if (c3 =? 0x7D)%N then Some (VObj (define k v acc), rest4)
                              else None
                          | [] => None
                          end
                      end
                    else None
                | [] => None
                end
            end
          else None
      | [] => None
      end
  end.

(** [JSON.parse(s)]: one value, white space around it, nothing else. *)
Definition json_parse (s : jsstring) : option value :=
  match json_value (2 * List.length s + 2) s with
  | Some (v, rest) => if is_empty (skip_ws rest) then Some v else None
  | None => None
  end.

(** [n] in decimal, padded with zeros to [width] digits. *)
Definition padded (width : nat) (n : Z) : jsstring :=
  let ds := decimal (Z.to_N n) in
  repeat 0x30%N (width - List.length ds) ++ ds.

(** The ISO-8601 form of a time value, in UTC; the date is the civil date
    of the day number [t / 86400000] in the proleptic Gregorian calendar. *)
Definition iso_string (t : Z) : jsstring :=
  let days := t / 86400000 in
  let ms := t mod 86400000 in
  let z := days + 719468 in
  let era := z / 146097 in
  let doe := z - era * 146097 in
  let yoe := (doe - doe / 1460 + doe / 36524 - doe / 146096) / 365 in
  let doy := doe - (365 * yoe + yoe / 4 - yoe / 100) in
  let mp := (5 * doy + 2) / 153 in
  let d := doy - (153 * mp + 2) / 5 + 1 in
  let m := if mp <? 10 then mp + 3 else mp - 9 in
  let y := yoe + era * 400 + (if m <=? 2 then 1 else 0) in
  let year :=
    if (0 <=? y) && (y <=? 9999) then padded 4 y
    else (if y <? 0 then js "-" else js "+") ++ padded 6 (Z.abs y) in
  year ++ js "-" ++ padded 2 m ++ js "-" ++ padded 2 d ++ js "T" ++
  padded 2 (ms / 3600000) ++ js ":" ++ padded 2 (ms / 60000 mod 60) ++ js ":" ++
  padded 2 (ms / 1000 mod 60) ++ js "." ++ padded 3 (ms mod 1000) ++ js "Z".

(** axios 1.x: the error for a refused status and the error for a
    timeout. *)
Definition axios_status_error (status : Z) : error :=
  {| err_code :=
       if (400 <=? status) && (status <? 500) then Some (js "ERR_BAD_REQUEST")
       else if (500 <=? status) && (status <? 600) then Some (js "ERR_BAD_RESPONSE")
       else None;
     err_message := js "Request failed with status code " ++ decimal (Z.to_N status) |}.

Definition axios_timeout_error (timeout : Z) : error :=
  {| err_code := Some (js "ECONNABORTED");
     err_message := js "timeout of " ++ decimal (Z.to_N timeout) ++ js "ms exceeded" |}.

Definition node : Runtime := {|
  JSON_parse := json_parse;
  toISOString := iso_string;
  status_error := axios_status_error;
  timeout_error := axios_timeout_error
|}.

(* ===================================================================== *)
(** ** Sample worlds *)
(* ===================================================================== *)

Definition no_settings : ProcessEnv :=
  {| env_SERIAL_PORT := None; env_SERIAL_BAUD := None; env_API_URL := None |}.

(** [SERIAL_PORT=COM7 SERIAL_BAUD=fast] *)
Definition bad_baud : ProcessEnv :=
  {| env_SERIAL_PORT := Some (js "COM7");
     env_SERIAL_BAUD := Some (js "fast");
     env_API_URL := None |}.

Definition access_denied : error :=
  {| err_code := None; err_message := js "Opening COM4: Access denied" |}.

Definition uno : PortInfo :=
  {| path := js "COM4";
     manufacturer := Some (js "Arduino LLC (www.arduino.cc)");
     friendlyName := Some (js "Arduino Uno (COM4)") |}.

Definition modem : PortInfo :=
  {| path := js "COM1"; manufacturer := Some (js "Standard port types");
     friendlyName := None |}.

(** The port is busy twice and then opens; the endpoint accepts. *)
Definition busy_twice : Environment :=
  {| devices := inr [modem; uno];
     open_attempt := fun k => if (k <? 2)%nat then OpenFails access_denied else Opens;
     post_attempt := fun _ => Responded 200 |}.

(** The port never opens; the endpoint answers 503 to everything. *)
Definition all_down : Environment :=
  {| devices := inr [modem; uno];
     open_attempt := fun _ => OpenFails access_denied;
     post_attempt := fun _ => Responded 503 |}.

(** The line [{"temp":21.5}] and the record it denotes. *)
Definition temp_line : jsstring := jsq "{'temp':21.5}".

Definition temp_record : value := VObj [(js "temp", VNum (js "21.5"))].

(** The port opens at once; the endpoint times out, then answers 502,
    then accepts. *)
Definition flaky : Environment :=
  {| devices := inr [uno];
     open_attempt := fun _ => Opens;
     post_attempt := fun k =>
       match k with
       | O => TimedOut
       | S O => Responded 502
       | _ => Responded 200
       end |}.

(* ===================================================================== *)
(** * Properties *)
(* ===================================================================== *)

(** ** Strings *)

Lemma str_eqb_refl (a : jsstring) : str_eqb a a = true.
Proof.
  induction a as [|x a IH]; cbn; [ reflexivity | ].
  rewrite N.eqb_refl. exact IH.
Qed.

Lemma str_eqb_eq (a b : jsstring) : str_eqb a b = true <-> a = b.
Proof.
  split.
  - revert b. induction a as [|x a IH]; intros [|y b] H; cbn in H;
      try discriminate; [ reflexivity | ].
    apply andb_true_iff in H. destruct H as [Hx Hr].
    apply N.eqb_eq in Hx. apply IH in Hr. congruence.
  - intros <-. apply str_eqb_refl.
Qed.

Lemma str_eqb_neq (a b : jsstring) : str_eqb a b = false <-> a <> b.
Proof.
  split.
  - intros H E. apply str_eqb_eq in E. congruence.
  - intros H. destruct (str_eqb a b) eqn:E; [ | reflexivity ].
    apply str_eqb_eq in E. contradiction.
Qed.


(** ** Running a tree *)

Section Exec.

Variable env : Environment.

#[global] Instance exec_eutt {A} : Proper (eutt eq ==> eq ==> eutt eq) (@exec env A).
Proof.
  intros t u H w w' <-. unfold exec. rewrite H. reflexivity.
Qed.

#[global] Instance runs_eutt {A} :
  Proper (eutt eq ==> eq ==> eq ==> eq ==> eq ==> iff) (@runs env A).
Proof.
  intros t u H w ? <- tr ? <- w' ? <- a ? <-. unfold runs. rewrite H. reflexivity.
Qed.

Lemma exec_ret {A} (a : A) w : exec env (Ret a) w ≈ Ret (w, a).
Proof. unfold exec. rewrite interp_state_ret. reflexivity. Qed.

Lemma exec_bind {A B} (t : itree ioE A) (k : A -> itree ioE B) w :
  exec env (ITree.bind t k) w
  ≈ ITree.bind (exec env t w) (fun r => exec env (k (snd r)) (fst r)).
Proof. unfold exec. rewrite interp_state_bind. reflexivity. Qed.

Lemma say_app tr1 tr2 : say (tr1 ++ tr2) ≈ (say tr1;; say tr2).
Proof.
  induction tr1 as [|o tr1 IH]; cbn.
  - rewrite bind_ret_l. reflexivity.
  - rewrite bind_vis. apply eqit_Vis. intros []. apply IH.
Qed.

Lemma say_say {A} tr1 tr2 (u : itree outE A) :
  (say tr1;; say tr2;; u) ≈ (say (tr1 ++ tr2);; u).
Proof. rewrite say_app, bind_bind. reflexivity. Qed.

Lemma runs_ret {A} (a : A) w : runs env (Ret a) w [] w a.
Proof. unfold runs. cbn. rewrite bind_ret_l. apply exec_ret. Qed.

Lemma runs_trigger {X} (e : ioE X) w w' x :
  react env e w = inl (w', x) -> runs env (ITree.trigger e) w [Did e x] w' x.
Proof.
  intros H. unfold runs, exec. rewrite interp_state_trigger. unfold handle_io. rewrite H.
  cbn. rewrite bind_vis. apply eqit_Vis. intros []. rewrite bind_ret_l. reflexivity.
Qed.

(** After [t] has run, the rest runs in the world [t] left. *)
Lemma exec_after {A B} (t : itree ioE A) (k : A -> itree ioE B) w tr w' a :
  runs env t w tr w' a ->
  exec env (ITree.bind t k) w ≈ (say tr;; exec env (k a) w').
Proof.
  intros H. rewrite exec_bind. unfold runs in H. rewrite H.
  rewrite bind_bind. setoid_rewrite bind_ret_l. reflexivity.
Qed.

Lemma runs_bind {A B} (t : itree ioE A) (k : A -> itree ioE B) w tr1 w1 a tr2 w2 b :
  runs env t w tr1 w1 a -> runs env (k a) w1 tr2 w2 b ->
  runs env (ITree.bind t k) w (tr1 ++ tr2) w2 b.
Proof.
  intros H1 H2. unfold runs. rewrite (exec_after _ H1). unfold runs in H2.
  setoid_rewrite H2. rewrite say_app, bind_bind. reflexivity.
Qed.

Lemma runs_eq {A} (t : itree ioE A) w tr w' a tr0 w0 a0 :
  runs env t w tr w' a -> tr = tr0 -> w' = w0 -> a = a0 -> runs env t w tr0 w0 a0.
Proof. intros H <- <- <-. exact H. Qed.

(** A run that [run_for] saw return did return, having shown that. *)
Lemma run_for_returned {A} fuel : forall (t : itree outE (World * A)) tr w a,
  run_for fuel t = (tr, Returned w a) -> t ≈ (say tr;; Ret (w, a)).
Proof.
  induction fuel as [|n IH]; intros t tr w a H; cbn in H; [ discriminate | ].
  rewrite (itree_eta t). destruct (observe t) as [[w0 a0] | t' | X e k].
  - inversion H; subst. cbn. rewrite bind_ret_l. reflexivity.
  - rewrite tau_eutt. apply IH. exact H.
  - destruct e as [o | code].
    + destruct (run_for n (k tt)) as [tr' r] eqn:E. inversion H; subst.
      cbn. rewrite bind_vis. apply eqit_Vis. intros []. apply IH. exact E.
    + discriminate.
Qed.

(** What [run_for] saw, the run has shown. *)
Lemma run_for_shown {A} fuel : forall (t : itree outE (World * A)),
  exists rest, t ≈ (say (fst (run_for fuel t));; rest).
Proof.
  induction fuel as [|n IH]; intros t; cbn.
  - exists t. rewrite bind_ret_l. reflexivity.
  - destruct (observe t) as [[w0 a0] | t' | X e k] eqn:E.
    + exists t. cbn. rewrite bind_ret_l. reflexivity.
    + destruct (IH t') as (rest & H). exists rest.
      rewrite (itree_eta t), E, tau_eutt. exact H.
    + destruct e as [o | code].
      * destruct (IH (k tt)) as (rest & H). exists rest.
        destruct (run_for n (k tt)) as [tr' r]. cbn in *.
        rewrite (itree_eta t), E, bind_vis. apply eqit_Vis. intros []. exact H.
      * exists t. cbn. rewrite bind_ret_l. reflexivity.
Qed.

Lemma run_for_prefix {A} fuel (t : itree outE (World * A)) pre more :
  fst (run_for fuel t) = pre ++ more -> exists rest, t ≈ (say pre;; rest).
Proof.
  intros H. destruct (run_for_shown fuel t) as (rest & Hr).
  rewrite H, say_app, bind_bind in Hr. eexists. exact Hr.
Qed.

Lemma run_for_runs {A} fuel (t : itree ioE A) w tr w' a :
  run_for fuel (exec env t w) = (tr, Returned w' a) -> runs env t w tr w' a.
Proof. apply run_for_returned. Qed.

End Exec.

Create HintDb runs.

(** Symbolic execution of a straight-line tree; [tac] brings the
    answers of the environment into view. *)
Ltac run_with tac :=
  lazymatch goal with
  | |- runs _ (ITree.bind _ _) _ _ _ _ =>
      eapply runs_bind; [ run_with tac | cbv beta iota; run_with tac ]
  | |- runs _ (ITree.trigger _) _ _ _ _ =>
      eapply runs_trigger; cbn; tac; reflexivity
  | |- runs _ (Ret _) _ _ _ _ => eapply runs_ret
  | |- runs _ (log _ _) _ _ _ _ => unfold log; run_with tac
  | |- runs _ (try_bind _ _) _ _ _ _ => unfold try_bind; run_with tac
  | |- runs _ (deref _) _ _ _ _ => unfold deref; run_with tac
  | |- _ => first [ eassumption | solve [eauto with runs] ]
  end.

(** Two runs that show the same things and end the same way. *)
Ltac say_eq := repeat rewrite say_say; cbn [app]; reflexivity.

Ltac run_to_end tac := eapply runs_eq; [ run_with tac | try reflexivity .. ].

(** ** Reading a trace *)

Lemma posts_app tr1 tr2 : posts (tr1 ++ tr2) = posts tr1 ++ posts tr2.
Proof. apply filter_app. Qed.


(** ** Trees that never exit *)

Lemma exit_free_mon {R} : monotone1 (@exit_free_ R).
Proof.
  intros t r r' H LE. unfold exit_free_ in *.
  destruct H; constructor; auto.
Qed.
#[global] Hint Resolve exit_free_mon : paco.

Lemma never_exits_ret {R} (a : R) : never_exits (Ret a : itree ioE R).
Proof. pfold. unfold exit_free_. cbn. constructor. Qed.

Lemma never_exits_vis {X R} (e : ioE X) (k : X -> itree ioE R) :
  is_exit e = false -> (forall x, never_exits (k x)) -> never_exits (Vis e k).
Proof.
  intros He Hk. pfold. unfold exit_free_. cbn. constructor; [ exact He | ].
  intros x. left. apply Hk.
Qed.

Lemma never_exits_trigger {X} (e : ioE X) :
  is_exit e = false -> never_exits (ITree.trigger e).
Proof.
  intros He. pfold. unfold exit_free_. cbn. constructor; [ exact He | ].
  intros x. left. apply never_exits_ret.
Qed.

(** One layer of a tree known to never exit, seen from any stage of a
    coinductive proof. *)
Lemma never_exits_layer {R} (r : itree ioE R -> Prop) (t : itree ioE R) :
  never_exits t -> exit_freeF (upaco1 exit_free_ r) (observe t).
Proof.
  intros H. punfold H. unfold exit_free_ in H.
  destruct H as [a | t' Ht' | X e k He Hk]; constructor; auto.
  - left. pclearbot. eapply paco1_mon; [ exact Ht' | intros ? [] ].
  - intros x. left. specialize (Hk x). pclearbot.
    eapply paco1_mon; [ exact Hk | intros ? [] ].
Qed.

Lemma never_exits_bind {A B} (t : itree ioE A) (k : A -> itree ioE B) :
  never_exits t -> (forall a, never_exits (k a)) -> never_exits (ITree.bind t k).
Proof.
  intros Ht Hk. revert t Ht. pcofix CIH. intros t Ht.
  pfold. unfold exit_free_.
  punfold Ht. unfold exit_free_ in Ht.
  rewrite observe_bind.
  destruct Ht as [a | t' Ht' | X e h He Hh]; cbn.
  - apply never_exits_layer. apply Hk.
  - pclearbot. constructor. right. apply CIH. assumption.
  - constructor; [ assumption | ].
    intros x. right. apply CIH. specialize (Hh x). pclearbot. exact Hh.
Qed.

Lemma never_exits_iter {I R} (body : I -> itree ioE (I + R)) :
  (forall i, never_exits (body i)) -> forall i, never_exits (ITree.iter body i).
Proof.
  intros Hbody. pcofix CIH. intros i.
  assert (G : forall t, never_exits t ->
    paco1 exit_free_ r
      (ITree.bind t (fun lr => match lr with
                               | inl l => Tau (ITree.iter body l)
                               | inr x => Ret x
                               end))).
  { pcofix CIH2. intros t Ht.
    pfold. unfold exit_free_. punfold Ht. unfold exit_free_ in Ht.
    rewrite observe_bind.
    destruct Ht as [[l | x] | t' Ht' | X e h He Hh]; cbn.
    - constructor. right. apply CIH.
    - constructor.
    - pclearbot. constructor. right. apply CIH2. assumption.
    - constructor; [ assumption | ].
      intros x. right. apply CIH2. specialize (Hh x). pclearbot. exact Hh. }
  pfold. unfold exit_free_.
  rewrite (observing_observe (unfold_aloop_ body i)).
  specialize (G (body i) (Hbody i)). punfold G.
Qed.

Create HintDb exit_free.

Ltac exit_free :=
  repeat first
    [ apply never_exits_ret
    | apply never_exits_trigger; reflexivity
    | apply never_exits_bind; [ | intros ? ]
    | match goal with
      | |- never_exits (match ?x with _ => _ end) => destruct x
      end
    | progress unfold log, try_bind, deref
    | solve [auto with exit_free] ].

Section ExitFree.

Context {rt : Runtime}.
Variable cfg : Config.

Lemma never_exits_autoDetectPort : never_exits autoDetectPort.
Proof. unfold autoDetectPort. exit_free. Qed.
#[local] Hint Resolve never_exits_autoDetectPort : exit_free.

Lemma never_exits_openPort : never_exits (openPort cfg).
Proof. unfold openPort. exit_free. Qed.
#[local] Hint Resolve never_exits_openPort : exit_free.

Lemma never_exits_wireHandlers : never_exits wireHandlers.
Proof. unfold wireHandlers. exit_free. Qed.
#[local] Hint Resolve never_exits_wireHandlers : exit_free.

Lemma never_exits_ensureOpen : never_exits (ensureOpen cfg).
Proof.
  unfold ensureOpen. apply never_exits_iter. intros [].
  unfold ensureOpen_body, open_and_wire. exit_free.
Qed.
#[local] Hint Resolve never_exits_ensureOpen : exit_free.

Lemma never_exits_onClose : never_exits (onClose cfg).
Proof. unfold onClose. exit_free. Qed.

Lemma never_exits_onError err : never_exits (onError err).
Proof. unfold onError. exit_free. Qed.

Lemma never_exits_postWithRetries data : forall n r,
  Z.to_nat r = n -> never_exits (postWithRetries cfg data r).
Proof.
  induction n as [|n IH]; intros r Hr; rewrite postWithRetries_equation_1;
    unfold axios_post.
  - exit_free. lia.
  - exit_free. apply (IH (r - 1)). lia.
Qed.

Lemma never_exits_onData line : never_exits (onData cfg line).
Proof.
  unfold onData. destruct (is_empty (trim line)); [ exit_free | ].
  destruct (JSON_parse (trim line)); [ | exit_free ].
  exit_free. eapply never_exits_postWithRetries. reflexivity.
Qed.

Lemma never_exits_main : never_exits (main cfg).
Proof. unfold main. exit_free. Qed.

End ExitFree.

(* ===================================================================== *)
(** ** The connection supervisor *)
(* ===================================================================== *)

Section Supervisor.

Variable env : Environment.
Variable cfg : Config.

Lemma runs_autoDetectPort w :
  runs env autoDetectPort w [Did SerialList (devices env)] w
       (match devices env with inr ports => pick_port ports | inl _ => js "COM3" end).
Proof.
  unfold autoDetectPort.
  destruct (devices env) eqn:Hd; run_to_end ltac:(rewrite ?Hd).
Qed.

Lemma runs_openPort w :
  let o := open_attempt env (n_opens w) in
  runs env (openPort cfg) w (discovery env cfg ++ attempt_trace env cfg o (fresh w))
       (attempt_world o w) (attempt_result o (fresh w)).
Proof.
  intros o. unfold openPort.
  eapply runs_bind.
  - instantiate (1 := chosen_path env cfg). instantiate (1 := w).
    unfold discovery, chosen_path, is_auto.
    destruct (str_eqb (SERIAL_PORT cfg) (js "auto")).
    + apply runs_autoDetectPort.
    + apply runs_ret.
  - cbv beta. subst o.
    destruct (open_attempt env (n_opens w)) eqn:Ho; run_to_end ltac:(rewrite ?Ho).
Qed.

Lemma runs_wireHandlers w sp ps :
  g_port w = Some sp -> g_parser w = Some ps ->
  runs env wireHandlers w
       [Did GetPort (Some sp); Did (On sp EvClose) tt;
        Did GetPort (Some sp); Did (On sp EvError) tt;
        Did GetParser (Some ps); Did (On ps EvData) tt] w (inr tt).
Proof.
  intros Hp Hq. unfold wireHandlers. run_to_end ltac:(rewrite ?Hp, ?Hq).
Qed.

#[local] Hint Extern 1 (runs _ wireHandlers _ _ _ _) =>
  eapply runs_wireHandlers; reflexivity : runs.

(** One turn of the loop. *)
Lemma runs_turn w :
  let o := open_attempt env (n_opens w) in
  runs env (ensureOpen_body cfg tt) w (turn_trace env cfg w) (turn_world env cfg w)
       (if open_fails o then inl tt else inr tt).
Proof.
  intros o. unfold ensureOpen_body, open_and_wire.
  unfold turn_trace, turn_world. fold o.
  pose proof (runs_openPort w) as Hopen. cbv zeta in Hopen. fold o in Hopen.
  destruct o eqn:Ho; cbn [attempt_result attempt_world open_fails] in *;
    (run_to_end idtac; rewrite <- !app_assoc; reflexivity).
Qed.

(** The loop, unrolled once: a turn that fails is followed by the same
    loop again, with no count of the turns made. *)
Lemma ensureOpen_unfold :
  ensureOpen cfg ≈
  (r <- ensureOpen_body cfg tt;;
   match r with
   | inl _ => ensureOpen cfg
   | inr _ => Ret tt
   end).
Proof.
  unfold ensureOpen at 1. rewrite unfold_iter.
  apply eutt_clo_bind with (UU := eq); [ reflexivity | ].
  intros r ? <-. destruct r as [[]|[]].
  - rewrite tau_eutt. reflexivity.
  - reflexivity.
Qed.

Lemma ensureOpen_retries w :
  open_fails (open_attempt env (n_opens w)) = true ->
  exec env (ensureOpen cfg) w
  ≈ (say (turn_trace env cfg w);; exec env (ensureOpen cfg) (turn_world env cfg w)).
Proof.
  intros Hf. rewrite ensureOpen_unfold at 1.
  pose proof (runs_turn w) as H. cbv zeta in H. rewrite Hf in H.
  rewrite (exec_after _ H). reflexivity.
Qed.

Lemma ensureOpen_opens w :
  open_attempt env (n_opens w) = Opens ->
  runs env (ensureOpen cfg) w (turn_trace env cfg w) (turn_world env cfg w) tt.
Proof.
  intros Ho. rewrite ensureOpen_unfold.
  pose proof (runs_turn w) as H. cbv zeta in H. rewrite Ho in H. cbn in H.
  eapply runs_eq; [ eapply runs_bind; [ exact H | apply runs_ret ] | | reflexivity .. ].
  apply app_nil_r.
Qed.

End Supervisor.

Section Turns.

Variable env : Environment.
Variable cfg : Config.

Lemma timeline_discovery : timeline (discovery env cfg) = [].
Proof. unfold discovery. destruct (is_auto cfg); reflexivity. Qed.

Lemma state_changes_discovery : state_changes (discovery env cfg) = [].
Proof. unfold discovery. destruct (is_auto cfg); reflexivity. Qed.

Lemma wiring_discovery : filter is_wiring (discovery env cfg) = [].
Proof. unfold discovery. destruct (is_auto cfg); reflexivity. Qed.

Lemma n_opens_turn w : n_opens (turn_world env cfg w) = S (n_opens w).
Proof. unfold turn_world. destruct (open_attempt env (n_opens w)); reflexivity. Qed.

Lemma n_opens_after n : forall w, n_opens (after_turns env cfg n w) = (n_opens w + n)%nat.
Proof.
  induction n as [|n IH]; intros w; cbn.
  - lia.
  - rewrite IH, n_opens_turn. lia.
Qed.

(** A turn that fails: one attempt, then one wait of the reconnect delay,
    and nothing is wired. *)
Lemma failed_turn w :
  open_fails (open_attempt env (n_opens w)) = true ->
  timeline (turn_trace env cfg w) = [OpenAttempt; Waited (CONNECT_RETRY_MS cfg)]
  /\ state_changes (turn_trace env cfg w) = [Connecting; Disconnected]
  /\ filter is_wiring (turn_trace env cfg w) = []
  /\ clock (turn_world env cfg w) = clock w + Z.max 0 (CONNECT_RETRY_MS cfg).
Proof.
  intros Hf. unfold turn_trace, turn_world, timeline.
  unfold state_changes. rewrite !flat_map_app, !filter_app.
  fold (timeline (discovery env cfg)). fold (state_changes (discovery env cfg)).
  rewrite timeline_discovery, state_changes_discovery, wiring_discovery.
  destruct (open_attempt env (n_opens w)); try discriminate; cbn; auto.
Qed.

(** A turn that succeeds: one attempt and no wait; the parser is made
    and the handlers are attached after the port has opened. *)
Lemma opening_turn w :
  open_attempt env (n_opens w) = Opens ->
  timeline (turn_trace env cfg w) = [OpenAttempt]
  /\ state_changes (turn_trace env cfg w) = [Connecting; Open]
  /\ clock (turn_world env cfg w) = clock w
  /\ (exists before,
        turn_trace env cfg w =
          before ++ Did (PortOpen (fresh w)) None
                 :: Did (Console Log (MsgOpened (chosen_path env cfg) (SERIAL_BAUD cfg))) tt
                 :: wiring cfg (fresh w)
        /\ filter is_wiring before = [])
  /\ g_port (turn_world env cfg w) = Some (fresh w)
  /\ g_parser (turn_world env cfg w) = Some (S (fresh w))
  /\ In (fresh w) (opened (turn_world env cfg w)).
Proof.
  intros Ho. unfold turn_trace, turn_world, timeline.
  unfold state_changes. rewrite !flat_map_app.
  fold (timeline (discovery env cfg)). fold (state_changes (discovery env cfg)).
  rewrite timeline_discovery, state_changes_discovery.
  rewrite Ho. cbn. repeat split; auto.
  exists (discovery env cfg ++
          [Did (NewSerialPort (chosen_path env cfg) (SERIAL_BAUD cfg)) (inr (fresh w))]).
  split.
  - rewrite <- app_assoc. reflexivity.
  - rewrite filter_app, wiring_discovery. reflexivity.
Qed.

(** [n] turns that fail, one after the other. *)
Lemma ensureOpen_retries_n n : forall w,
  (forall k, (k < n)%nat -> open_fails (open_attempt env (n_opens w + k)) = true) ->
  exec env (ensureOpen cfg) w
  ≈ (say (turns_trace env cfg n w);; exec env (ensureOpen cfg) (after_turns env cfg n w)).
Proof.
  induction n as [|n IH]; intros w Hf; cbn [turns_trace after_turns].
  - cbn. rewrite bind_ret_l. reflexivity.
  - rewrite ensureOpen_retries.
    2:{ specialize (Hf 0%nat). rewrite Nat.add_0_r in Hf. apply Hf. lia. }
    assert (H : exec env (ensureOpen cfg) (turn_world env cfg w)
                ≈ (say (turns_trace env cfg n (turn_world env cfg w));;
                   exec env (ensureOpen cfg) (after_turns env cfg n (turn_world env cfg w)))).
    { apply IH. intros k Hk. rewrite n_opens_turn.
      replace (S (n_opens w) + k)%nat with (n_opens w + S k)%nat by lia.
      apply Hf. lia. }
    setoid_rewrite H.
    rewrite say_app, !bind_bind. reflexivity.
Qed.

Lemma failed_turns n : forall w,
  (forall k, (k < n)%nat -> open_fails (open_attempt env (n_opens w + k)) = true) ->
  timeline (turns_trace env cfg n w)
    = concat (repeat [OpenAttempt; Waited (CONNECT_RETRY_MS cfg)] n)
  /\ state_changes (turns_trace env cfg n w) = concat (repeat [Connecting; Disconnected] n)
  /\ filter is_wiring (turns_trace env cfg n w) = []
  /\ clock (after_turns env cfg n w) = clock w + Z.of_nat n * Z.max 0 (CONNECT_RETRY_MS cfg).
Proof.
  induction n as [|n IH]; intros w Hf.
  - cbn. repeat split; auto. lia.
  - cbn [turns_trace after_turns repeat concat].
    destruct (failed_turn w) as (T1 & S1 & W1 & C1).
    { specialize (Hf 0%nat). rewrite Nat.add_0_r in Hf. apply Hf. lia. }
    destruct (IH (turn_world env cfg w)) as (T2 & S2 & W2 & C2).
    { intros k Hk. rewrite n_opens_turn.
      replace (S (n_opens w) + k)%nat with (n_opens w + S k)%nat by lia.
      apply Hf. lia. }
    unfold timeline, state_changes in *.
    rewrite !flat_map_app, filter_app, T1, T2, S1, S2, W1, W2, C2, C1.
    repeat split; auto. lia.
Qed.

End Turns.

Section Reconnect.

Variable env : Environment.
Variable cfg : Config.

Lemma turns_snoc n : forall w,
  turns_trace env cfg (S n) w
    = turns_trace env cfg n w ++ turn_trace env cfg (after_turns env cfg n w)
  /\ after_turns env cfg (S n) w = turn_world env cfg (after_turns env cfg n w).
Proof.
  induction n as [|n IH]; intros w.
  - cbn. rewrite app_nil_r. auto.
  - destruct (IH (turn_world env cfg w)) as [Ht Hw].
    change (turns_trace env cfg (S (S n)) w)
      with (turn_trace env cfg w ++ turns_trace env cfg (S n) (turn_world env cfg w)).
    change (after_turns env cfg (S (S n)) w)
      with (after_turns env cfg (S n) (turn_world env cfg w)).
    rewrite Ht, Hw. cbn [turns_trace after_turns]. rewrite app_assoc. auto.
Qed.

(** C4.  When the first [N] attempts to open the port fail and the next
    one succeeds, [ensureOpen] returns after exactly [N + 1] attempts with
    exactly [N] waits of [CONNECT_RETRY_MS], one after each failure; the
    connection goes Disconnected, ([Connecting], [Disconnected]) [N] times,
    [Connecting], [Open]; and the parser and its data handler exist only
    after the port has opened. *)
Theorem ensureOpen_opens_after_failures (w : World) (N : nat) :
  (forall k, (k < N)%nat -> open_fails (open_attempt env (n_opens w + k)) = true) ->
  open_attempt env (n_opens w + N) = Opens ->
  let tr := turns_trace env cfg (S N) w in
  let w' := after_turns env cfg (S N) w in
  runs env (ensureOpen cfg) w tr w' tt
  /\ timeline tr
     = concat (repeat [OpenAttempt; Waited (CONNECT_RETRY_MS cfg)] N) ++ [OpenAttempt]
  /\ Disconnected :: state_changes tr
     = Disconnected :: concat (repeat [Connecting; Disconnected] N) ++ [Connecting; Open]
  /\ clock w' = clock w + Z.of_nat N * Z.max 0 (CONNECT_RETRY_MS cfg)
  /\ exists before h,
       tr = before ++ Did (PortOpen h) None
                   :: Did (Console Log (MsgOpened (chosen_path env cfg) (SERIAL_BAUD cfg))) tt
                   :: wiring cfg h
       /\ filter is_wiring before = []
       /\ g_port w' = Some h /\ g_parser w' = Some (S h) /\ In h (opened w').
Proof.
  intros Hfail Hopen tr w'. subst tr w'.
  destruct (turns_snoc N w) as [-> ->].
  set (wN := after_turns env cfg N w).
  assert (HwN : open_attempt env (n_opens wN) = Opens).
  { unfold wN. rewrite n_opens_after. exact Hopen. }
  destruct (@failed_turns env cfg N w Hfail) as (T1 & S1 & W1 & C1). fold wN in C1.
  destruct (@opening_turn env cfg wN HwN) as (T2 & S2 & C2 & (before & Hb & Wb) & P2 & Q2 & O2).
  split; [ | split; [ | split; [ | split ] ] ].
  - unfold runs. rewrite (@ensureOpen_retries_n env cfg N w Hfail). fold wN.
    pose proof (@ensureOpen_opens env cfg wN HwN) as H. unfold runs in H.
    setoid_rewrite H. rewrite say_app, !bind_bind. reflexivity.
  - unfold timeline in *. rewrite flat_map_app, T1, T2. reflexivity.
  - unfold state_changes in *. rewrite flat_map_app, S1, S2. reflexivity.
  - rewrite C2, C1. reflexivity.
  - exists (turns_trace env cfg N w ++ before), (fresh wN).
    rewrite Hb, <- app_assoc, filter_app, W1, Wb. auto.
Qed.

End Reconnect.

(** With the device list [modem; uno], the port busy twice and then free,
    the third attempt opens COM4 after two waits. *)
Lemma ensureOpen_opens_after_failures_witness :
  (forall k, (k < 2)%nat ->
     open_fails (open_attempt busy_twice (n_opens (initial 0) + k)) = true)
  /\ open_attempt busy_twice (n_opens (initial 0) + 2) = Opens
  /\ timeline (turns_trace busy_twice (CONFIG no_settings) 3 (initial 0))
     = [OpenAttempt; Waited 3000; OpenAttempt; Waited 3000; OpenAttempt]
  /\ clock (after_turns busy_twice (CONFIG no_settings) 3 (initial 0)) = 6000.
Proof.
  assert (H1 : forall k, (k < 2)%nat ->
     open_fails (open_attempt busy_twice (n_opens (initial 0) + k)) = true).
  { intros [|[|k]] Hk; [ reflexivity | reflexivity | lia ]. }
  assert (H2 : open_attempt busy_twice (n_opens (initial 0) + 2) = Opens)
    by reflexivity.
  split; [ exact H1 | split; [ exact H2 | ] ].
  destruct (@ensureOpen_opens_after_failures busy_twice (CONFIG no_settings)
              (initial 0) 2 H1 H2)
    as (_ & T & _ & C & _).
  split; [ exact T | exact C ].
Defined.


Section Forever.

Variable env : Environment.
Variable cfg : Config.

(** Whatever its outcome, a turn starts with an attempt to open the
    port. *)
Lemma turn_starts_with_attempt w :
  exists answer rest,
    turn_trace env cfg w
    = (discovery env cfg
       ++ [Did (NewSerialPort (chosen_path env cfg) (SERIAL_BAUD cfg)) answer]) ++ rest.
Proof.
  unfold turn_trace, attempt_trace.
  destruct (open_attempt env (n_opens w)); eexists; eexists;
    rewrite <- app_assoc; reflexivity.
Qed.

Lemma ensureOpen_attempts w :
  exists answer rest,
    exec env (ensureOpen cfg) w
    ≈ (say (discovery env cfg
            ++ [Did (NewSerialPort (chosen_path env cfg) (SERIAL_BAUD cfg)) answer]);;
       rest).
Proof.
  destruct (turn_starts_with_attempt w) as (answer & tail & Ht).
  pose proof (runs_turn env cfg w) as H. cbv zeta in H.
  exists answer.
  exists (say tail;;
          exec env
            (match (if open_fails (open_attempt env (n_opens w)) then inl tt else inr tt)
             with
             | inl _ => ensureOpen cfg
             | inr _ => Ret tt
             end) (turn_world env cfg w)).
  rewrite ensureOpen_unfold at 1.
  etransitivity; [ apply (exec_after _ H) | ].
  rewrite Ht, say_app, bind_bind. reflexivity.
Qed.

(** The handler of "close" waits the reconnect delay and enters the same
    loop. *)
Lemma onClose_reconnects w :
  exec env (onClose cfg) w
  ≈ (say [Did (Console Error MsgPortClosed) tt; Did (Sleep (CONNECT_RETRY_MS cfg)) tt];;
     exec env (ensureOpen cfg) (advance (CONNECT_RETRY_MS cfg) w)).
Proof.
  unfold onClose.
  assert (H : runs env (log Error MsgPortClosed;; ITree.trigger (Sleep (CONNECT_RETRY_MS cfg)))
                w [Did (Console Error MsgPortClosed) tt; Did (Sleep (CONNECT_RETRY_MS cfg)) tt]
                (advance (CONNECT_RETRY_MS cfg) w) tt)
    by (run_to_end idtac).
  rewrite <- (exec_after (fun _ => ensureOpen cfg) H), bind_bind. reflexivity.
Qed.

(** C8.  There is no last attempt.  However many attempts to open the port
    have failed, [n] of them, the supervisor has waited [CONNECT_RETRY_MS]
    after each, is back at the start of its loop, and makes attempt
    [n + 1]; the loop and the handler of "close", which enters it again
    after the same wait, never reach [process.exit]. *)
Theorem ensureOpen_retries_forever (w : World) (n : nat) :
  (forall k, (k < n)%nat -> open_fails (open_attempt env (n_opens w + k)) = true) ->
  let tr := turns_trace env cfg n w in
  let w' := after_turns env cfg n w in
  exec env (ensureOpen cfg) w ≈ (say tr;; exec env (ensureOpen cfg) w')
  /\ timeline tr = concat (repeat [OpenAttempt; Waited (CONNECT_RETRY_MS cfg)] n)
  /\ (exists answer rest,
        let attempt :=
          discovery env cfg
          ++ [Did (NewSerialPort (chosen_path env cfg) (SERIAL_BAUD cfg)) answer] in
        exec env (ensureOpen cfg) w ≈ (say (tr ++ attempt);; rest)
        /\ timeline (tr ++ attempt)
           = concat (repeat [OpenAttempt; Waited (CONNECT_RETRY_MS cfg)] n)
             ++ [OpenAttempt])
  /\ never_exits (ensureOpen cfg)
  /\ never_exits (onClose cfg)
  /\ exec env (onClose cfg) w
     ≈ (say [Did (Console Error MsgPortClosed) tt; Did (Sleep (CONNECT_RETRY_MS cfg)) tt];;
        exec env (ensureOpen cfg) (advance (CONNECT_RETRY_MS cfg) w)).
Proof.
  intros Hfail tr w'. subst tr w'.
  destruct (@failed_turns env cfg n w Hfail) as (T & _).
  pose proof (@ensureOpen_retries_n env cfg n w Hfail) as Hn.
  split; [ exact Hn | split; [ exact T | split; [ | split; [ | split ] ] ] ].
  - destruct (ensureOpen_attempts (after_turns env cfg n w)) as (answer & rest & Ha).
    exists answer, rest. cbv zeta. split.
    + rewrite Hn. setoid_rewrite Ha.
      rewrite (say_app (turns_trace env cfg n w)), bind_bind. reflexivity.
    + unfold timeline in *. rewrite !flat_map_app, T.
      fold (timeline (discovery env cfg)). rewrite timeline_discovery. reflexivity.
  - apply never_exits_ensureOpen.
  - apply never_exits_onClose.
  - apply onClose_reconnects.
Qed.

End Forever.

(** A port that stays busy: after five failures the sixth attempt is
    made, fifteen seconds in. *)
Lemma ensureOpen_retries_forever_witness :
  (forall k, (k < 5)%nat ->
     open_fails (open_attempt all_down (n_opens (initial 0) + k)) = true)
  /\ timeline (turns_trace all_down (CONFIG no_settings) 5 (initial 0))
     = [OpenAttempt; Waited 3000; OpenAttempt; Waited 3000; OpenAttempt; Waited 3000;
        OpenAttempt; Waited 3000; OpenAttempt; Waited 3000].
Proof.
  assert (H : forall k, (k < 5)%nat ->
     open_fails (open_attempt all_down (n_opens (initial 0) + k)) = true)
    by (intros k _; reflexivity).
  split; [ exact H | ].
  exact (proj1 (proj2 (@ensureOpen_retries_forever all_down (CONFIG no_settings)
                         (initial 0) 5 H))).
Defined.

(* ===================================================================== *)
(** ** The delivery client *)
(* ===================================================================== *)

Section Delivery.

Context {rt : Runtime}.
Variable env : Environment.
Variable cfg : Config.

Lemma validateStatus_2xx (s : Z) : validateStatus s = true <-> 200 <= s < 300.
Proof. unfold validateStatus. rewrite andb_true_iff. lia. Qed.

(** Axios resolves exactly the responses with a status from 200 to 299. *)
Lemma settle_resolves (o : post_outcome) :
  settle cfg o = inr tt <-> exists s, o = Responded s /\ 200 <= s < 300.
Proof.
  split.
  - destruct o as [s | e | ]; cbn; try discriminate.
    destruct (validateStatus s) eqn:E; [ | discriminate ].
    intros _. exists s. split; [ reflexivity | ]. apply validateStatus_2xx, E.
  - intros (s & -> & Hs). cbn.
    apply validateStatus_2xx in Hs. rewrite Hs. reflexivity.
Qed.

Lemma runs_axios_post data w :
  runs env (axios_post cfg data) w
       [post_of cfg data (post_attempt env (n_posts w))] (count_post w)
       (settle cfg (post_attempt env (n_posts w))).
Proof. unfold axios_post. run_to_end idtac. Qed.

#[local] Hint Resolve runs_axios_post : runs.

(** An attempt that succeeds ends the delivery. *)
Lemma postWithRetries_ok data r w :
  settle cfg (post_attempt env (n_posts w)) = inr tt ->
  runs env (postWithRetries cfg data r) w
       [post_of cfg data (post_attempt env (n_posts w))] (count_post w) (inr tt).
Proof.
  intros Hs. rewrite postWithRetries_equation_1.
  pose proof (runs_axios_post data w) as H. rewrite Hs in H.
  run_to_end idtac.
Qed.

(** An attempt that fails with retries left: a warning, the wait, and the
    same delivery with one retry fewer. *)
Lemma postWithRetries_retry data r w err :
  settle cfg (post_attempt env (n_posts w)) = inl err ->
  r > 0 ->
  exec env (postWithRetries cfg data r) w
  ≈ (say [post_of cfg data (post_attempt env (n_posts w));
          Did (Console Warn (MsgPostRetrying (or_default (err_code err) (err_message err))
                                             (backoff cfg r) r)) tt;
          Did (Sleep (backoff cfg r)) tt];;
     exec env (postWithRetries cfg data (r - 1)) (advance (backoff cfg r) (count_post w))).
Proof.
  intros Hs Hr. rewrite postWithRetries_equation_1 at 1.
  pose proof (runs_axios_post data w) as H. rewrite Hs in H.
  rewrite (exec_after _ H). cbv beta iota.
  destruct (Z_gt_dec r 0) as [_ | Hn]; [ | lia ].
  assert (H2 : runs env
            (log Warn (MsgPostRetrying (or_default (err_code err) (err_message err))
                                       (backoff cfg r) r);;
             ITree.trigger (Sleep (backoff cfg r)))
            (count_post w)
            [Did (Console Warn (MsgPostRetrying (or_default (err_code err) (err_message err))
                                                (backoff cfg r) r)) tt;
             Did (Sleep (backoff cfg r)) tt]
            (advance (backoff cfg r) (count_post w)) tt)
    by (run_to_end idtac).
  cbv zeta. fold (backoff cfg r).
  assert (H3 : exec env
            (log Warn (MsgPostRetrying (or_default (err_code err) (err_message err))
                                       (backoff cfg r) r);;
             ITree.trigger (Sleep (backoff cfg r));;
             postWithRetries cfg data (r - 1))
            (count_post w)
          ≈ (say [Did (Console Warn
                         (MsgPostRetrying (or_default (err_code err) (err_message err))
                                          (backoff cfg r) r)) tt;
                  Did (Sleep (backoff cfg r)) tt];;
             exec env (postWithRetries cfg data (r - 1))
                  (advance (backoff cfg r) (count_post w)))).
  { rewrite <- bind_bind.
    apply (exec_after (fun _ : unit => postWithRetries cfg data (r - 1)) H2). }
  setoid_rewrite H3. say_eq.
Qed.

(** An attempt that fails with no retry left: the error is thrown. *)
Lemma postWithRetries_throw data r w err :
  settle cfg (post_attempt env (n_posts w)) = inl err ->
  r <= 0 ->
  runs env (postWithRetries cfg data r) w
       [post_of cfg data (post_attempt env (n_posts w))] (count_post w) (inl err).
Proof.
  intros Hs Hr. rewrite postWithRetries_equation_1.
  pose proof (runs_axios_post data w) as H. rewrite Hs in H.
  destruct (Z_gt_dec r 0) as [Hn | _]; [ lia | ].
  run_to_end idtac.
Qed.

(** [postWithRetries] does what [delivery] says. *)
Lemma runs_postWithRetries data : forall n r w,
  Z.to_nat r = n ->
  runs env (postWithRetries cfg data r) w
       (fst (fst (delivery env cfg data n r w)))
       (snd (fst (delivery env cfg data n r w)))
       (snd (delivery env cfg data n r w)).
Proof.
  induction n as [|n IH]; intros r w Hn; cbn [delivery];
    destruct (settle cfg (post_attempt env (n_posts w))) as [err | []] eqn:Hs.
  - cbn. apply postWithRetries_throw; [ exact Hs | lia ].
  - cbn. apply postWithRetries_ok. exact Hs.
  - specialize (IH (r - 1) (advance (backoff cfg r) (count_post w))).
    destruct (delivery env cfg data n (r - 1) (advance (backoff cfg r) (count_post w)))
      as [[tr w'] res].
    cbn [fst snd] in *. unfold runs.
    rewrite (@postWithRetries_retry data r w err Hs) by lia.
    assert (IH' := IH ltac:(lia)). unfold runs in IH'.
    setoid_rewrite IH'. say_eq.
  - cbn. apply postWithRetries_ok. exact Hs.
Qed.


(* --------------------------------------------------------------------- *)
(** *** An endpoint that refuses everything *)

Lemma map_seq_S {A} (f : nat -> A) a n :
  List.map f (seq a (S n)) = f a :: List.map (fun k => f (S k)) (seq a n).
Proof. cbn. f_equal. rewrite <- seq_shift, List.map_map. reflexivity. Qed.

Lemma flat_map_seq_S {A} (f : nat -> list A) a n :
  flat_map f (seq a (S n)) = f a ++ flat_map (fun k => f (S k)) (seq a n).
Proof.
  cbn. f_equal. rewrite <- seq_shift.
  induction (seq a n) as [|x l IH]; cbn; [ reflexivity | ]. rewrite IH. reflexivity.
Qed.

Lemma delivery_all_fail data : forall n r w,
  r = Z.of_nat n ->
  (forall k, exists err, settle cfg (post_attempt env k) = inl err) ->
  let D := delivery env cfg data n r w in
  let wait k := POST_TIMEOUT_MS cfg * (MAX_POST_RETRIES cfg - r + Z.of_nat k) in
  (exists err, snd D = inl err)
  /\ timeline (fst (fst D))
     = flat_map (fun k => [Posted; Waited (wait k)]) (seq 1 n) ++ [Posted]
  /\ sleeps (fst (fst D)) = List.map wait (seq 1 n)
  /\ posts (fst (fst D))
     = List.map (fun k => post_of cfg data (post_attempt env (n_posts w + k))) (seq 0 (S n)).
Proof.
  induction n as [|n IH]; intros r w Hr Hfail; cbv zeta; cbn [delivery];
    destruct (Hfail (n_posts w)) as [err Hs]; rewrite Hs.
  - cbn. rewrite Nat.add_0_r. repeat split; eauto.
  - specialize (IH (r - 1) (advance (backoff cfg r) (count_post w)) ltac:(lia) Hfail).
    cbv zeta in IH.
    destruct (delivery env cfg data n (r - 1) (advance (backoff cfg r) (count_post w)))
      as [[tr w'] res].
    cbn [fst snd] in *. destruct IH as (E & T & S & P).
    split; [ exact E | ]. split; [ | split ].
    + rewrite flat_map_seq_S. unfold timeline in *. cbn. unfold backoff. do 2 f_equal.
      rewrite T. f_equal. apply flat_map_ext. intros k. do 3 f_equal. lia.
    + rewrite map_seq_S. unfold sleeps in *. cbn. unfold backoff. f_equal.
      rewrite S. apply List.map_ext. intros k. f_equal. lia.
    + rewrite map_seq_S. unfold posts in *. cbn [filter post_of is_post].
      rewrite Nat.add_0_r. f_equal. rewrite P. apply List.map_ext.
      intros k. cbn. do 3 f_equal. lia.
Qed.

Lemma waits_increase (T : Z) (n : nat) : forall a,
  0 < T -> StronglySorted Z.lt (List.map (fun k => T * Z.of_nat k) (seq a n)).
Proof.
  induction n as [|n IH]; intros a HT; cbn; constructor.
  - apply IH. exact HT.
  - apply Forall_forall. intros x Hx. apply in_map_iff in Hx.
    destruct Hx as (k & <- & Hk). apply in_seq in Hk. nia.
Qed.

End Delivery.

(* ===================================================================== *)
(** ** The data handler *)
(* ===================================================================== *)

Section DataHandler.

Context {rt : Runtime}.
Variable env : Environment.
Variable cfg : Config.

Lemma onData_blank line :
  is_empty (trim line) = true -> onData cfg line = Ret tt.
Proof. intros H. unfold onData. rewrite H. reflexivity. Qed.

Lemma onData_invalid line :
  is_empty (trim line) = false -> JSON_parse (trim line) = None ->
  onData cfg line = log Error (MsgInvalidJson (trim line)).
Proof. intros H1 H2. unfold onData. rewrite H1, H2. reflexivity. Qed.

Lemma onData_valid line payload :
  is_empty (trim line) = false -> JSON_parse (trim line) = Some payload ->
  onData cfg line
  = (now <- ITree.trigger NewDate;;
     r <- postWithRetries cfg (enriched payload (toISOString now)) (MAX_POST_RETRIES cfg);;
     match r with
     | inr _ => Ret tt
     | inl e => log Error (MsgPostFailed (err_message e))
     end).
Proof. intros H1 H2. unfold onData. rewrite H1, H2. reflexivity. Qed.

(** A line that parses: the clock is read, the enriched record is
    delivered, and a delivery that failed is logged. *)
Lemma runs_onData_valid line payload w :
  is_empty (trim line) = false -> JSON_parse (trim line) = Some payload ->
  let R := MAX_POST_RETRIES cfg in
  let D := delivery env cfg (enriched payload (toISOString (clock w))) (Z.to_nat R) R w in
  runs env (onData cfg line) w
       (Did NewDate (clock w) :: fst (fst D) ++ verdict (snd D)) (snd (fst D)) tt.
Proof.
  intros H1 H2 R D. rewrite (onData_valid _ H1 H2).
  pose proof (@runs_postWithRetries rt env cfg (enriched payload (toISOString (clock w)))
                (Z.to_nat R) R w eq_refl) as HD.
  fold D in HD. unfold verdict.
  destruct (snd D) as [e | []]; run_to_end idtac.
Qed.

End DataHandler.

(* ===================================================================== *)
(** ** The claims about delivery and decoding *)
(* ===================================================================== *)

Section Pipeline.

Context {rt : Runtime}.
Variable env : Environment.
Variable cfg : Config.

(** C1.  With [MAX_POST_RETRIES = R] and an endpoint that fails every
    request (a status outside 2xx, a transport error or a timeout),
    [postWithRetries(data, R)] makes exactly [R + 1] POSTs of [data]; the
    wait before the k-th retry is [POST_TIMEOUT_MS * k], so the waits grow
    strictly when the timeout is positive; the error of the last attempt
    is thrown, and the data handler catches it, logs it and returns. *)
Theorem deliver_exhausts_retries (R : Z) :
  MAX_POST_RETRIES cfg = R ->
  0 <= R ->
  (forall k, exists err, settle cfg (post_attempt env k) = inl err) ->
  (forall data w,
     let D := delivery env cfg data (Z.to_nat R) R w in
     let tr := fst (fst D) in
     runs env (postWithRetries cfg data R) w tr (snd (fst D)) (snd D)
     /\ (exists err, snd D = inl err)
     /\ timeline tr
        = flat_map (fun k => [Posted; Waited (POST_TIMEOUT_MS cfg * Z.of_nat k)])
                   (seq 1 (Z.to_nat R))
          ++ [Posted]
     /\ posts tr
        = List.map (fun k => post_of cfg data (post_attempt env (n_posts w + k)))
                   (seq 0 (S (Z.to_nat R)))
     /\ Z.of_nat (List.length (posts tr)) = R + 1
     /\ sleeps tr
        = List.map (fun k => POST_TIMEOUT_MS cfg * Z.of_nat k) (seq 1 (Z.to_nat R))
     /\ (0 < POST_TIMEOUT_MS cfg -> StronglySorted Z.lt (sleeps tr)))
  /\ (forall line payload w,
        is_empty (trim line) = false ->
        JSON_parse (trim line) = Some payload ->
        let data := enriched payload (toISOString (clock w)) in
        let D := delivery env cfg data (Z.to_nat R) R w in
        exists err,
          snd D = inl err
          /\ runs env (onData cfg line) w
                  (Did NewDate (clock w)
                     :: fst (fst D)
                     ++ [Did (Console Error (MsgPostFailed (err_message err))) tt])
                  (snd (fst D)) tt).
Proof.
  intros HR Hpos Hfail.
  assert (A : forall data w,
     let D := delivery env cfg data (Z.to_nat R) R w in
     (exists err, snd D = inl err)
     /\ timeline (fst (fst D))
        = flat_map (fun k => [Posted; Waited (POST_TIMEOUT_MS cfg * Z.of_nat k)])
                   (seq 1 (Z.to_nat R)) ++ [Posted]
     /\ sleeps (fst (fst D))
        = List.map (fun k => POST_TIMEOUT_MS cfg * Z.of_nat k) (seq 1 (Z.to_nat R))
     /\ posts (fst (fst D))
        = List.map (fun k => post_of cfg data (post_attempt env (n_posts w + k)))
                   (seq 0 (S (Z.to_nat R)))).
  { intros data w.
    destruct (@delivery_all_fail rt env cfg data (Z.to_nat R) R w ltac:(lia) Hfail)
      as (E & T & S & P).
    cbv zeta. repeat split; [ exact E | | | exact P ].
    - rewrite T. f_equal. apply flat_map_ext. intros k. do 3 f_equal. lia.
    - rewrite S. apply List.map_ext. intros k. f_equal. lia. }
  split.
  - intros data w D tr. subst D tr.
    destruct (A data w) as (E & T & S & P).
    split; [ apply runs_postWithRetries; reflexivity | ].
    split; [ exact E | ]. split; [ exact T | ]. split; [ exact P | ].
    split; [ | split; [ exact S | ] ].
    + rewrite P, length_map, length_seq. lia.
    + intros HT. rewrite S. apply waits_increase. exact HT.
  - intros line payload w Hne Hparse data D. subst data D.
    destruct (A (enriched payload (toISOString (clock w))) w) as ((err & E) & _).
    exists err. split; [ exact E | ].
    pose proof (@runs_onData_valid rt env cfg line payload w Hne Hparse) as H.
    cbv zeta in H. rewrite HR in H. rewrite E in H. exact H.
Qed.

(** C7.  An attempt succeeds exactly when the response has a status from
    200 to 299.  Any other status, a transport error and a timeout reject
    the request, and the rejection takes the path of the [catch]: with
    retries left, a warning, the wait and a new attempt; with none left,
    the error is thrown to the caller. *)
Theorem attempt_succeeds_iff_2xx (data : value) (r : Z) (w : World) :
  let o := post_attempt env (n_posts w) in
  (settle cfg o = inr tt <-> exists s, o = Responded s /\ 200 <= s < 300)
  /\ (forall s, o = Responded s -> ~ 200 <= s < 300 -> settle cfg o = inl (status_error s))
  /\ (forall e, o = TransportError e -> settle cfg o = inl e)
  /\ (o = TimedOut -> settle cfg o = inl (timeout_error (POST_TIMEOUT_MS cfg)))
  /\ (settle cfg o = inr tt ->
      runs env (postWithRetries cfg data r) w [post_of cfg data o] (count_post w) (inr tt))
  /\ (forall err, settle cfg o = inl err -> r > 0 ->
      exec env (postWithRetries cfg data r) w
      ≈ (say [post_of cfg data o;
              Did (Console Warn
                     (MsgPostRetrying (or_default (err_code err) (err_message err))
                                      (backoff cfg r) r)) tt;
              Did (Sleep (backoff cfg r)) tt];;
         exec env (postWithRetries cfg data (r - 1))
              (advance (backoff cfg r) (count_post w))))
  /\ (forall err, settle cfg o = inl err -> r <= 0 ->
      runs env (postWithRetries cfg data r) w [post_of cfg data o] (count_post w) (inl err)).
Proof.
  intros o. subst o.
  split; [ apply settle_resolves | ].
  split.
  { intros s Ho Hs. rewrite Ho. cbn.
    destruct (validateStatus s) eqn:E; [ | reflexivity ].
    apply validateStatus_2xx in E. contradiction. }
  split; [ intros e Ho; rewrite Ho; reflexivity | ].
  split; [ intros Ho; rewrite Ho; reflexivity | ].
  split; [ apply postWithRetries_ok | ].
  split; [ intros err; apply postWithRetries_retry | intros err; apply postWithRetries_throw ].
Qed.

(** C3.  A line that is not empty once trimmed and that [JSON.parse]
    refuses does one thing: the error is logged with the trimmed line.
    Nothing is enriched, nothing is posted, the world is as it was, and
    the line that comes next is handled as if this one had never come. *)
Theorem invalid_line_is_logged_and_skipped (line : jsstring) (w : World) :
  is_empty (trim line) = false ->
  JSON_parse (trim line) = None ->
  onData cfg line = log Error (MsgInvalidJson (trim line))
  /\ runs env (onData cfg line) w
          [Did (Console Error (MsgInvalidJson (trim line))) tt] w tt
  /\ forall next,
       exec env (onData cfg line;; onData cfg next) w
       ≈ (say [Did (Console Error (MsgInvalidJson (trim line))) tt];;
          exec env (onData cfg next) w).
Proof.
  intros Hne Hparse.
  assert (Hrun : runs env (onData cfg line) w
                      [Did (Console Error (MsgInvalidJson (trim line))) tt] w tt).
  { rewrite (@onData_invalid rt cfg line Hne Hparse). run_to_end idtac. }
  split; [ apply onData_invalid; assumption | ].
  split; [ exact Hrun | ].
  intros next. apply (exec_after (fun _ => onData cfg next) Hrun).
Qed.

End Pipeline.

(** The endpoint answers 503 to everything: the record of the line
    [{"temp":21.5}] is posted four times, after waits of 5, 10 and 15
    seconds, and given up. *)
Lemma deliver_exhausts_retries_witness :
  MAX_POST_RETRIES (CONFIG no_settings) = 3
  /\ 0 <= 3
  /\ (forall k, exists err,
        settle (rt := node) (CONFIG no_settings) (post_attempt all_down k) = inl err)
  /\ is_empty (trim temp_line) = false
  /\ JSON_parse (Runtime := node) (trim temp_line) = Some temp_record
  /\ (let data := enriched temp_record (toISOString (Runtime := node) 0) in
      let tr := fst (fst (delivery (rt := node) all_down (CONFIG no_settings) data 3 3
                                   (initial 0))) in
      sleeps tr = [5000; 10000; 15000]
      /\ Z.of_nat (List.length (posts tr)) = 4).
Proof.
  assert (H1 : MAX_POST_RETRIES (CONFIG no_settings) = 3) by reflexivity.
  assert (H2 : 0 <= 3) by lia.
  assert (H3 : forall k, exists err,
        settle (rt := node) (CONFIG no_settings) (post_attempt all_down k) = inl err)
    by (intros k; eexists; reflexivity).
  assert (H4 : is_empty (trim temp_line) = false) by reflexivity.
  assert (H5 : JSON_parse (Runtime := node) (trim temp_line) = Some temp_record)
    by reflexivity.
  repeat (split; [ assumption | ]).
  destruct (@deliver_exhausts_retries node all_down (CONFIG no_settings) 3 H1 H2 H3)
    as [A _].
  destruct (A (enriched temp_record (toISOString (Runtime := node) 0)) (initial 0))
    as (_ & _ & _ & _ & L & S & _).
  split; [ exact S | exact L ].
Defined.

(** A 503 with two retries left: the attempt is refused and retried. *)
Lemma attempt_succeeds_iff_2xx_witness :
  settle (rt := node) (CONFIG no_settings) (Responded 503) = inl (axios_status_error 503)
  /\ settle (rt := node) (CONFIG no_settings) (Responded 204) = inr tt.
Proof.
  destruct (@attempt_succeeds_iff_2xx node all_down (CONFIG no_settings) temp_record 2
              (initial 0)) as (_ & B & _).
  split.
  - apply (B 503); [ reflexivity | lia ].
  - reflexivity.
Defined.

(** The line [not json]. *)
Lemma invalid_line_is_logged_and_skipped_witness :
  is_empty (trim (js "not json")) = false
  /\ JSON_parse (Runtime := node) (trim (js "not json")) = None
  /\ runs busy_twice (onData (rt := node) (CONFIG no_settings) (js "not json")) (initial 0)
          [Did (Console Error (MsgInvalidJson (js "not json"))) tt] (initial 0) tt.
Proof.
  assert (H1 : is_empty (trim (js "not json")) = false) by reflexivity.
  assert (H2 : JSON_parse (Runtime := node) (trim (js "not json")) = None) by reflexivity.
  repeat (split; [ assumption | ]).
  exact (proj1 (proj2 (@invalid_line_is_logged_and_skipped node busy_twice
                         (CONFIG no_settings) (js "not json") (initial 0) H1 H2))).
Defined.

(* ===================================================================== *)
(** ** The enriched record *)
(* ===================================================================== *)

Lemma get_define_same k v ps : get k (define k v ps) = Some v.
Proof.
  induction ps as [|[k' v'] ps IH]; cbn.
  - rewrite str_eqb_refl. reflexivity.
  - destruct (str_eqb k k') eqn:E; cbn.
    + rewrite str_eqb_refl. reflexivity.
    + rewrite E. exact IH.
Qed.

Lemma get_define_other k v k' ps : k' <> k -> get k' (define k v ps) = get k' ps.
Proof.
  intros Hne. induction ps as [|[k0 v0] ps IH]; cbn.
  - apply str_eqb_neq in Hne. rewrite Hne. reflexivity.
  - destruct (str_eqb k k0) eqn:E; cbn.
    + apply str_eqb_eq in E. subst k0.
      apply str_eqb_neq in Hne. rewrite Hne. reflexivity.
    + destruct (str_eqb k' k0); [ reflexivity | exact IH ].
Qed.

(** Defining a key the object has changes no key. *)
Lemma keys_define_present k v ps : In k (keys ps) -> keys (define k v ps) = keys ps.
Proof.
  induction ps as [|[k' v'] ps IH]; cbn; [ contradiction | ].
  intros [-> | Hin].
  - rewrite str_eqb_refl. reflexivity.
  - destruct (str_eqb k k') eqn:E; cbn.
    + apply str_eqb_eq in E. subst. reflexivity.
    + f_equal. apply IH, Hin.
Qed.

(** Defining a key the object lacks adds the property at the end. *)
Lemma define_absent k v ps : ~ In k (keys ps) -> define k v ps = ps ++ [(k, v)].
Proof.
  induction ps as [|[k' v'] ps IH]; cbn; [ reflexivity | ].
  intros Hn. destruct (str_eqb k k') eqn:E.
  - apply str_eqb_eq in E. subst. tauto.
  - f_equal. apply IH. tauto.
Qed.

Lemma in_keys_define k v ps k' : In k' (keys (define k v ps)) <-> In k' (keys ps) \/ k' = k.
Proof.
  induction ps as [|[k0 v0] ps IH]; cbn.
  - intuition.
  - destruct (str_eqb k k0) eqn:E; cbn.
    + apply str_eqb_eq in E. subst. intuition.
    + rewrite IH. intuition.
Qed.

Lemma NoDup_define k v ps : NoDup (keys ps) -> NoDup (keys (define k v ps)).
Proof.
  induction ps as [|[k0 v0] ps IH]; cbn; intros Hnd.
  - constructor; [ intros [] | constructor ].
  - inversion Hnd as [|? ? Hn Hnd']; subst.
    destruct (str_eqb k k0) eqn:E; cbn.
    + apply str_eqb_eq in E. subst. constructor; assumption.
    + constructor; [ | apply IH, Hnd' ].
      rewrite in_keys_define. intros [H | H]; [ tauto | ].
      subst. rewrite str_eqb_refl in E. discriminate.
Qed.

Lemma NoDup_spread src : forall target,
  NoDup (keys target) -> NoDup (keys (spread target src)).
Proof.
  induction src as [|[k v] src IH]; intros target H; cbn; [ exact H | ].
  apply IH, NoDup_define, H.
Qed.

(** Spreading an object with one property per key copies its properties
    as they are. *)
Lemma spread_app src : forall target,
  NoDup (keys (target ++ src)) -> spread target src = target ++ src.
Proof.
  induction src as [|[k v] src IH]; intros target H; cbn.
  - rewrite app_nil_r. reflexivity.
  - change (spread (define k v target) src = target ++ (k, v) :: src).
    assert (Hk : ~ In k (keys target)).
    { unfold keys in H. rewrite List.map_app in H. cbn in H.
      apply NoDup_remove_2 in H. intros Hin. apply H, in_or_app. left. exact Hin. }
    rewrite (@define_absent k v target Hk), IH.
    + rewrite <- app_assoc. reflexivity.
    + rewrite <- app_assoc. exact H.
Qed.

Lemma spread_nil src : NoDup (keys src) -> spread [] src = src.
Proof. intros H. apply (spread_app src []). exact H. Qed.

Lemma NoDup_enriched payload iso : NoDup (keys (fields (enriched payload iso))).
Proof.
  cbn. apply NoDup_define, NoDup_define, NoDup_spread. constructor.
Qed.

Lemma count_once k l : NoDup l -> In k l -> count_occ jsstring_eq_dec l k = 1%nat.
Proof.
  intros Hnd Hin.
  pose proof (proj1 (NoDup_count_occ jsstring_eq_dec l) Hnd k) as Hle.
  pose proof (proj1 (count_occ_In jsstring_eq_dec l k) Hin) as Hgt.
  lia.
Qed.

Lemma INGESTED_AT_neq_SOURCE : INGESTED_AT <> SOURCE.
Proof. discriminate. Qed.

(* --------------------------------------------------------------------- *)
(** *** Index keys *)

Lemma js_inj (a b : string) : js a = js b -> a = b.
Proof.
  unfold js. intros H.
  rewrite <- (string_of_list_ascii_of_string a), <- (string_of_list_ascii_of_string b).
  f_equal. revert H.
  generalize (list_ascii_of_string a) (list_ascii_of_string b).
  intros l. induction l as [|x l IH]; intros [|y l'] H; cbn in H; try discriminate.
  - reflexivity.
  - inversion H as [[Hx Hl]]. f_equal.
    + rewrite <- (ascii_N_embedding x), <- (ascii_N_embedding y), Hx. reflexivity.
    + apply IH, Hl.
Qed.

Lemma to_uint_nonnil (n : N) : N.to_uint n <> Decimal.Nil.
Proof.
  destruct n as [|p]; cbn; [ discriminate | ].
  apply DecimalPos.Unsigned.to_uint_nonnil.
Qed.

Lemma decimal_inj (a b : N) : decimal a = decimal b -> a = b.
Proof.
  unfold decimal. intros H. apply js_inj in H.
  apply DecimalN.Unsigned.to_uint_inj.
  pose proof (NilZero.usu _ (to_uint_nonnil a)) as Ha.
  pose proof (NilZero.usu _ (to_uint_nonnil b)) as Hb.
  rewrite H in Ha. rewrite Ha in Hb. inversion Hb. reflexivity.
Qed.

Lemma digits_string_of_uint (d : Decimal.uint) :
  forallb is_digit (js (NilEmpty.string_of_uint d)) = true.
Proof. induction d; cbn; auto. Qed.

Lemma decimal_digits (n : N) : forallb is_digit (decimal n) = true.
Proof.
  unfold decimal, NilZero.string_of_uint.
  destruct (N.to_uint n); try apply digits_string_of_uint. reflexivity.
Qed.

(** An index is not the name of a reserved field. *)
Lemma decimal_not_reserved (n : N) : decimal n <> INGESTED_AT /\ decimal n <> SOURCE.
Proof.
  pose proof (decimal_digits n) as H.
  split; intros E; rewrite E in H; discriminate.
Qed.

Lemma in_keys_indexed vs : forall i k,
  In k (keys (indexed_from i vs)) -> exists j, k = decimal j /\ (i <= j)%N.
Proof.
  induction vs as [|v vs IH]; intros i k; cbn; [ contradiction | ].
  intros [<- | Hin].
  - exists i. split; [ reflexivity | lia ].
  - destruct (IH _ _ Hin) as (j & -> & Hj). exists j. split; [ reflexivity | lia ].
Qed.

Lemma NoDup_indexed vs : forall i, NoDup (keys (indexed_from i vs)).
Proof.
  induction vs as [|v vs IH]; intros i; cbn; constructor.
  - intros Hin. destruct (in_keys_indexed _ _ _ Hin) as (j & Hj & Hle).
    apply decimal_inj in Hj. lia.
  - apply IH.
Qed.

(** Spreading a list of indexed values and adding the reserved fields. *)
Lemma enriched_indexed vs iso :
  define SOURCE (VStr (js "arduino-serial"))
    (define INGESTED_AT (VStr iso) (spread [] (indexed_from 0 vs)))
  = indexed_from 0 vs ++ [(INGESTED_AT, VStr iso); (SOURCE, VStr (js "arduino-serial"))].
Proof.
  rewrite (spread_nil _ (NoDup_indexed vs 0%N)).
  assert (HI : ~ In INGESTED_AT (keys (indexed_from 0 vs))).
  { intros Hin. destruct (in_keys_indexed _ _ _ Hin) as (j & Hj & _).
    symmetry in Hj. apply (proj1 (decimal_not_reserved j)), Hj. }
  assert (HS : ~ In SOURCE (keys (indexed_from 0 vs))).
  { intros Hin. destruct (in_keys_indexed _ _ _ Hin) as (j & Hj & _).
    symmetry in Hj. apply (proj2 (decimal_not_reserved j)), Hj. }
  rewrite (@define_absent INGESTED_AT (VStr iso) _ HI).
  rewrite define_absent.
  - rewrite <- app_assoc. reflexivity.
  - unfold keys. rewrite List.map_app. intros Hin. apply in_app_or in Hin.
    destruct Hin as [Hin | [Hin | []]]; [ exact (HS Hin) | discriminate ].
Qed.

(* ===================================================================== *)
(** ** The claims about the enriched record *)
(* ===================================================================== *)

Section Records.

Context {rt : Runtime}.
Variable env : Environment.
Variable cfg : Config.

(** A delivery starts by posting its data, and posts nothing else. *)
Lemma delivery_posts data : forall n r w,
  (exists rest,
     fst (fst (delivery env cfg data n r w))
     = post_of cfg data (post_attempt env (n_posts w)) :: rest)
  /\ Forall (fun o => exists outcome, o = post_of cfg data outcome)
            (posts (fst (fst (delivery env cfg data n r w)))).
Proof.
  induction n as [|n IH]; intros r w; cbn [delivery];
    destruct (settle cfg (post_attempt env (n_posts w))) as [err | []].
  - cbn. split; [ eexists; reflexivity | repeat constructor; eexists; reflexivity ].
  - cbn. split; [ eexists; reflexivity | repeat constructor; eexists; reflexivity ].
  - destruct (IH (r - 1) (advance (backoff cfg r) (count_post w))) as [_ F].
    destruct (delivery env cfg data n (r - 1) (advance (backoff cfg r) (count_post w)))
      as [[tr w'] res].
    cbn [fst snd] in *. split; [ eexists; reflexivity | ].
    unfold posts in *. cbn. constructor; [ eexists; reflexivity | exact F ].
  - cbn. split; [ eexists; reflexivity | repeat constructor; eexists; reflexivity ].
Qed.

Lemma posts_verdict r : posts (verdict r) = [].
Proof. destruct r; reflexivity. Qed.

(** C2.  For an object [payload] and a time [t], the enriched record has
    the fields of [payload], in their order and with their values, and
    the two reserved fields: [_ingested_at] holds [toISOString(t)] and
    [_source] holds "arduino-serial"; it has no other field and no field
    twice; and this record, made at the time the line was read, is what
    the data handler posts. *)
Theorem enriched_has_original_and_reserved_fields (props : properties) (t : Z) :
  NoDup (keys props) ->
  let e := fields (enriched (VObj props) (toISOString t)) in
  e = define SOURCE (VStr (js "arduino-serial"))
        (define INGESTED_AT (VStr (toISOString t)) props)
  /\ (forall k x, get k props = Some x -> k <> INGESTED_AT -> k <> SOURCE ->
                  get k e = Some x)
  /\ (forall k, In k (keys props) -> In k (keys e))
  /\ get INGESTED_AT e = Some (VStr (toISOString t))
  /\ get SOURCE e = Some (VStr (js "arduino-serial"))
  /\ (forall k, In k (keys e) -> In k (keys props) \/ k = INGESTED_AT \/ k = SOURCE)
  /\ NoDup (keys e)
  /\ (forall line w,
        is_empty (trim line) = false ->
        JSON_parse (trim line) = Some (VObj props) ->
        clock w = t ->
        exists tr w',
          runs env (onData cfg line) w (Did NewDate t :: tr) w' tt
          /\ (exists rest,
                tr = post_of cfg (enriched (VObj props) (toISOString t))
                             (post_attempt env (n_posts w)) :: rest)
          /\ Forall (fun o => exists outcome,
                       o = post_of cfg (enriched (VObj props) (toISOString t)) outcome)
                    (posts tr)).
Proof.
  intros Hnd e.
  assert (He : e = define SOURCE (VStr (js "arduino-serial"))
                     (define INGESTED_AT (VStr (toISOString t)) props)).
  { subst e. cbn [enriched fields own_props]. rewrite (spread_nil _ Hnd). reflexivity. }
  split; [ exact He | ].
  split.
  { intros k x Hget HI HS. rewrite He.
    rewrite get_define_other by exact HS.
    rewrite get_define_other by exact HI. exact Hget. }
  split.
  { intros k Hin. rewrite He. apply in_keys_define. left. apply in_keys_define. auto. }
  split.
  { rewrite He. rewrite get_define_other by exact INGESTED_AT_neq_SOURCE.
    apply get_define_same. }
  split; [ rewrite He; apply get_define_same | ].
  split.
  { intros k Hin. rewrite He in Hin. apply in_keys_define in Hin.
    destruct Hin as [Hin | ->]; [ | auto ].
    apply in_keys_define in Hin. tauto. }
  split; [ apply NoDup_enriched | ].
  intros line w Hne Hparse <-.
  pose proof (@runs_onData_valid rt env cfg line (VObj props) w Hne Hparse) as H.
  cbv zeta in H.
  set (D := delivery env cfg (enriched (VObj props) (toISOString (clock w)))
                     (Z.to_nat (MAX_POST_RETRIES cfg)) (MAX_POST_RETRIES cfg) w) in *.
  destruct (delivery_posts (enriched (VObj props) (toISOString (clock w)))
              (Z.to_nat (MAX_POST_RETRIES cfg)) (MAX_POST_RETRIES cfg) w)
    as [[rest Hrest] Hall].
  fold D in Hrest, Hall.
  exists (fst (fst D) ++ verdict (snd D)), (snd (fst D)).
  split; [ exact H | ]. split.
  - exists (rest ++ verdict (snd D)). rewrite Hrest. reflexivity.
  - rewrite posts_app, posts_verdict, app_nil_r. exact Hall.
Qed.

End Records.

(** The record of the line [{"temp":21.5}], enriched at time 0. *)
Lemma enriched_has_original_and_reserved_fields_witness :
  NoDup (keys [(js "temp", VNum (js "21.5"))])
  /\ fields (enriched temp_record (toISOString (Runtime := node) 0))
     = [(js "temp", VNum (js "21.5"));
        (js "_ingested_at", VStr (js "1970-01-01T00:00:00.000Z"));
        (js "_source", VStr (js "arduino-serial"))].
Proof.
  assert (H : NoDup (keys [(js "temp", VNum (js "21.5"))])).
  { constructor; [ intros [] | constructor ]. }
  split; [ exact H | ].
  exact (proj1 (@enriched_has_original_and_reserved_fields node busy_twice
                  (CONFIG no_settings) [(js "temp", VNum (js "21.5"))] 0 H)).
Defined.

(** C5.  Enriching an enriched record again adds no field: the result has
    the same keys, [_ingested_at] once, with the later timestamp, and
    [_source] once.  The same holds the first time for a payload that
    brings fields of these names: each is there once, with the value the
    handler gives it. *)
Theorem enriching_twice_overwrites (payload : value) (iso1 iso2 : jsstring) :
  let once := fields (enriched payload iso1) in
  let twice := fields (enriched (enriched payload iso1) iso2) in
  count_occ jsstring_eq_dec (keys twice) INGESTED_AT = 1%nat
  /\ count_occ jsstring_eq_dec (keys twice) SOURCE = 1%nat
  /\ get INGESTED_AT twice = Some (VStr iso2)
  /\ get SOURCE twice = Some (VStr (js "arduino-serial"))
  /\ keys twice = keys once
  /\ (forall k, k <> INGESTED_AT -> get k twice = get k once)
  /\ count_occ jsstring_eq_dec (keys once) INGESTED_AT = 1%nat
  /\ count_occ jsstring_eq_dec (keys once) SOURCE = 1%nat
  /\ get INGESTED_AT once = Some (VStr iso1)
  /\ get SOURCE once = Some (VStr (js "arduino-serial")).
Proof.
  intros once twice.
  assert (Hnd : NoDup (keys once)) by apply NoDup_enriched.
  assert (HI : In INGESTED_AT (keys once)).
  { subst once. cbn [enriched fields]. apply in_keys_define. left.
    apply in_keys_define. auto. }
  assert (HS : In SOURCE (keys once)).
  { subst once. cbn [enriched fields]. apply in_keys_define. auto. }
  assert (Ht : twice = define SOURCE (VStr (js "arduino-serial"))
                         (define INGESTED_AT (VStr iso2) once)).
  { subst twice.
    change (fields (enriched (enriched payload iso1) iso2))
      with (define SOURCE (VStr (js "arduino-serial"))
              (define INGESTED_AT (VStr iso2) (spread [] once))).
    rewrite (spread_nil _ Hnd). reflexivity. }
  assert (Hk : keys twice = keys once).
  { rewrite Ht. rewrite keys_define_present.
    - apply keys_define_present, HI.
    - rewrite keys_define_present by exact HI. exact HS. }
  assert (GS : forall iso ps, get SOURCE (define SOURCE (VStr (js "arduino-serial"))
                                        (define INGESTED_AT (VStr iso) ps))
                              = Some (VStr (js "arduino-serial")))
    by (intros; apply get_define_same).
  assert (GI : forall iso ps, get INGESTED_AT (define SOURCE (VStr (js "arduino-serial"))
                                        (define INGESTED_AT (VStr iso) ps))
                              = Some (VStr iso)).
  { intros. rewrite get_define_other by exact INGESTED_AT_neq_SOURCE.
    apply get_define_same. }
  repeat split.
  - rewrite Hk. apply count_once; assumption.
  - rewrite Hk. apply count_once; assumption.
  - rewrite Ht. apply GI.
  - rewrite Ht. apply GS.
  - exact Hk.
  - intros k Hne. rewrite Ht.
    destruct (jsstring_eq_dec k SOURCE) as [-> | HneS].
    + rewrite GS. subst once. cbn [enriched fields]. symmetry. apply get_define_same.
    + rewrite get_define_other by exact HneS.
      apply get_define_other. exact Hne.
  - apply count_once; assumption.
  - apply count_once; assumption.
  - subst once. cbn [enriched fields]. apply GI.
  - subst once. cbn [enriched fields]. apply GS.
Qed.

(** C10, as stated, fails on a string: the line ["hi"] is valid JSON, a
    primitive, and its spread contributes the fields [0] and [1], so the
    record that is posted has four fields and not two. *)
Lemma string_payload_contributes_fields :
  is_empty (trim (jsq "'hi'")) = false
  /\ JSON_parse (Runtime := node) (trim (jsq "'hi'")) = Some (VStr (js "hi"))
  /\ primitive (VStr (js "hi")) = true
  /\ fields (enriched (VStr (js "hi")) (js "T"))
     = [(js "0", VStr (js "h")); (js "1", VStr (js "i"));
        (INGESTED_AT, VStr (js "T")); (SOURCE, VStr (js "arduino-serial"))]
  /\ ~ (forall v iso,
          primitive v = true ->
          keys (fields (enriched v iso)) = [INGESTED_AT; SOURCE]).
Proof.
  repeat split; try reflexivity.
  intros H. specialize (H (VStr (js "hi")) (js "T") eq_refl). discriminate H.
Qed.

Section NonObjects.

Context {rt : Runtime}.
Variable env : Environment.
Variable cfg : Config.

(** C10, amended.  A line that [JSON.parse] accepts is enriched and
    posted whatever value it denotes.  [null], a boolean and a number
    contribute no field, so the record has the two reserved fields only; a
    string contributes one field per code unit, and an array one field per
    element, under the indices 0, 1, ... as keys, followed by the two
    reserved fields. *)
Theorem non_object_json_is_delivered (line : jsstring) (payload : value) (w : World) :
  is_empty (trim line) = false ->
  JSON_parse (trim line) = Some payload ->
  let iso := toISOString (clock w) in
  let reserved := [(INGESTED_AT, VStr iso); (SOURCE, VStr (js "arduino-serial"))] in
  (exists rest w',
     runs env (onData cfg line) w
          (Did NewDate (clock w)
             :: post_of cfg (enriched payload iso) (post_attempt env (n_posts w))
             :: rest) w' tt)
  /\ match payload with
     | VNull | VBool _ | VNum _ => fields (enriched payload iso) = reserved
     | VStr s =>
         fields (enriched payload iso)
         = indexed_from 0 (List.map (fun c => VStr [c]) s) ++ reserved
     | VArr elems => fields (enriched payload iso) = indexed_from 0 elems ++ reserved
     | VObj props =>
         NoDup (keys props) ->
         fields (enriched payload iso)
         = define SOURCE (VStr (js "arduino-serial")) (define INGESTED_AT (VStr iso) props)
     end.
Proof.
  intros Hne Hparse iso reserved. split.
  - pose proof (@runs_onData_valid rt env cfg line payload w Hne Hparse) as H.
    cbv zeta in H. fold iso in H.
    destruct (delivery_posts env cfg (enriched payload iso)
                (Z.to_nat (MAX_POST_RETRIES cfg)) (MAX_POST_RETRIES cfg) w)
      as [[rest Hrest] _].
    rewrite Hrest in H. eexists. eexists. exact H.
  - destruct payload as [ | b | n | s | elems | props ]; try reflexivity.
    + apply enriched_indexed.
    + apply enriched_indexed.
    + intros Hnd. cbn [enriched fields own_props]. rewrite (spread_nil _ Hnd).
      reflexivity.
Qed.

End NonObjects.

(** The lines [42] and [[true, null]]. *)
Lemma non_object_json_is_delivered_witness :
  is_empty (trim (js "42")) = false
  /\ JSON_parse (Runtime := node) (trim (js "42")) = Some (VNum (js "42"))
  /\ fields (enriched (VNum (js "42")) (toISOString (Runtime := node) 0))
     = [(js "_ingested_at", VStr (js "1970-01-01T00:00:00.000Z"));
        (js "_source", VStr (js "arduino-serial"))]
  /\ JSON_parse (Runtime := node) (trim (js "[true, null]")) = Some (VArr [VBool true; VNull])
  /\ fields (enriched (VArr [VBool true; VNull]) (toISOString (Runtime := node) 0))
     = [(js "0", VBool true); (js "1", VNull);
        (js "_ingested_at", VStr (js "1970-01-01T00:00:00.000Z"));
        (js "_source", VStr (js "arduino-serial"))].
Proof.
  assert (H1 : is_empty (trim (js "42")) = false) by reflexivity.
  assert (H2 : JSON_parse (Runtime := node) (trim (js "42")) = Some (VNum (js "42")))
    by reflexivity.
  assert (H3 : is_empty (trim (js "[true, null]")) = false) by reflexivity.
  assert (H4 : JSON_parse (Runtime := node) (trim (js "[true, null]"))
               = Some (VArr [VBool true; VNull])) by reflexivity.
  split; [ exact H1 | split; [ exact H2 | split; [ | split; [ exact H4 | ] ] ] ].
  - exact (proj2 (@non_object_json_is_delivered node busy_twice (CONFIG no_settings)
                    (js "42") (VNum (js "42")) (initial 0) H1 H2)).
  - exact (proj2 (@non_object_json_is_delivered node busy_twice (CONFIG no_settings)
                    (js "[true, null]") (VArr [VBool true; VNull]) (initial 0) H3 H4)).
Defined.

(* ===================================================================== *)
(** ** Discovery of the port *)
(* ===================================================================== *)

Lemma starts_with_ci_spec pat : forall s,
  starts_with_ci pat s = true <-> exists mid post, s = mid ++ post /\ same_ci mid pat.
Proof.
  unfold same_ci. induction pat as [|p pat IH]; intros s; cbn.
  - split; [ intros _; exists [], s; auto | reflexivity ].
  - destruct s as [|c s].
    + split; [ discriminate | ].
      intros (mid & post & Hs & Hm). symmetry in Hs. apply app_eq_nil in Hs.
      destruct Hs as [-> _]. discriminate.
    + rewrite andb_true_iff, N.eqb_eq, IH. split.
      * intros (Hc & mid & post & -> & Hm). exists (c :: mid), post.
        cbn. split; [ reflexivity | congruence ].
      * intros (mid & post & Hs & Hm). destruct mid as [|m mid]; [ discriminate | ].
        cbn in Hs, Hm. inversion Hs; subst. inversion Hm.
        split; [ congruence | ]. exists mid, post. auto.
Qed.

Lemma contains_ci_spec pat : forall s, contains_ci pat s = true <-> mentions pat s.
Proof.
  unfold mentions. induction s as [|c s IH].
  - cbn. rewrite orb_false_r, starts_with_ci_spec. split.
    + intros (mid & post & Hs & Hm). exists [], mid, post. auto.
    + intros (pre & mid & post & Hs & Hm). symmetry in Hs.
      apply app_eq_nil in Hs. destruct Hs as [-> Hs].
      apply app_eq_nil in Hs. destruct Hs as [-> ->]. exists [], []. auto.
  - change (contains_ci pat (c :: s))
      with (starts_with_ci pat (c :: s) || contains_ci pat s).
    rewrite orb_true_iff, starts_with_ci_spec, IH. split.
    + intros [(mid & post & Hs & Hm) | (pre & mid & post & Hs & Hm)].
      * exists [], mid, post. auto.
      * exists (c :: pre), mid, post. cbn. split; [ congruence | exact Hm ].
    + intros (pre & mid & post & Hs & Hm). destruct pre as [|x pre].
      * left. exists mid, post. auto.
      * right. cbn in Hs. inversion Hs; subst. exists pre, mid, post. auto.
Qed.

(** [/arduino|wch|usb/i] matches the strings that mention one of the
    three words. *)
Lemma re_arduino_spec s :
  re_arduino s = true
  <-> mentions (js "arduino") s \/ mentions (js "wch") s \/ mentions (js "usb") s.
Proof.
  unfold re_arduino. rewrite !orb_true_iff, !contains_ci_spec. tauto.
Qed.

Lemma is_digit_spec c : is_digit c = true <-> (0x30 <= c <= 0x39)%N.
Proof. unfold is_digit. rewrite andb_true_iff, !N.leb_le. tauto. Qed.

(** [/^COM\d+$/i] matches the names COM<digits>. *)
Lemma re_com_spec s : re_com s = true <-> com_name s.
Proof.
  unfold re_com, com_name. rewrite andb_true_iff, starts_with_ci_spec. split.
  - intros ((mid & post & -> & Hm) & Hd).
    assert (Hlen : List.length mid = 3%nat).
    { unfold same_ci in Hm. apply (f_equal (@List.length _)) in Hm.
      rewrite !length_map in Hm. exact Hm. }
    replace (skipn 3 (mid ++ post)) with post in Hd.
    2:{ rewrite <- Hlen, skipn_app, skipn_all, Nat.sub_diag. reflexivity. }
    exists mid, post. split; [ reflexivity | ]. split; [ exact Hm | ].
    destruct post as [|d post]; [ discriminate | ].
    split; [ discriminate | ].
    apply Forall_forall. intros c Hc. apply is_digit_spec.
    rewrite forallb_forall in Hd. apply Hd, Hc.
  - intros (mid & post & -> & Hm & Hne & Hd).
    assert (Hlen : List.length mid = 3%nat).
    { unfold same_ci in Hm. apply (f_equal (@List.length _)) in Hm.
      rewrite !length_map in Hm. exact Hm. }
    split; [ exists mid, post; auto | ].
    replace (skipn 3 (mid ++ post)) with post.
    2:{ rewrite <- Hlen, skipn_app, skipn_all, Nat.sub_diag. reflexivity. }
    destruct post as [|d post]; [ contradiction | ].
    apply forallb_forall. intros c Hc. apply is_digit_spec.
    rewrite Forall_forall in Hd. apply Hd, Hc.
Qed.

Lemma find_first_match {A} (p : A -> bool) (l : list A) :
  match find p l with
  | Some d => first_match p l d
  | None => Forall (fun x => p x = false) l
  end.
Proof.
  induction l as [|x l IH]; cbn; [ constructor | ].
  destruct (p x) eqn:E.
  - exists [], l. auto.
  - destruct (find p l) as [d|].
    + destruct IH as (before & after & -> & Hd & Hb).
      exists (x :: before), after. auto.
    + constructor; assumption.
Qed.

Section Discovery.

Variable env : Environment.
Variable cfg : Config.

(** C6.  With the selector "auto", [openPort] first lists the devices and
    opens the path [autoDetectPort] returns: the path of the first device
    whose manufacturer, friendly name or path mentions arduino, wch or usb
    in any case; if there is none, the path of the first device named
    COM<digits>; if there is none either, "COM3".  An enumeration that
    fails gives "COM3" as well: [autoDetectPort] returns a path in every
    case and throws in none. *)
Theorem autoDetectPort_policy (w : World) :
  let described p :=
    or_default (manufacturer p) [] ++ js " " ++
    or_default (friendlyName p) [] ++ js " " ++ path p in
  exists chosen,
    runs env autoDetectPort w [Did SerialList (devices env)] w chosen
    /\ match devices env with
       | inl _ => chosen = js "COM3"
       | inr ports =>
           (exists d, first_match looks_like_arduino ports d /\ chosen = path d)
           \/ (Forall (fun p => looks_like_arduino p = false) ports
               /\ exists d, first_match (fun p => re_com (path p)) ports d
                            /\ chosen = path d)
           \/ (Forall (fun p => looks_like_arduino p = false) ports
               /\ Forall (fun p => re_com (path p) = false) ports
               /\ chosen = js "COM3")
       end
    /\ (forall p, looks_like_arduino p = true
                  <-> mentions (js "arduino") (described p)
                      \/ mentions (js "wch") (described p)
                      \/ mentions (js "usb") (described p))
    /\ (forall p, re_com (path p) = true <-> com_name (path p))
    /\ (str_eqb (SERIAL_PORT cfg) (js "auto") = true ->
        exists answer rest w' r,
          runs env (openPort cfg) w
               (Did SerialList (devices env)
                  :: Did (NewSerialPort chosen (SERIAL_BAUD cfg)) answer :: rest) w' r)
    /\ (str_eqb (SERIAL_PORT cfg) (js "auto") = false ->
        exists answer rest w' r,
          runs env (openPort cfg) w
               (Did (NewSerialPort (SERIAL_PORT cfg) (SERIAL_BAUD cfg)) answer :: rest) w' r).
Proof.
  intros described.
  exists (match devices env with inr ports => pick_port ports | inl _ => js "COM3" end).
  split; [ apply runs_autoDetectPort | ].
  split.
  { destruct (devices env) as [e | ports]; [ reflexivity | ].
    unfold pick_port.
    pose proof (find_first_match looks_like_arduino ports) as H1.
    destruct (find looks_like_arduino ports) as [d|].
    - left. exists d. auto.
    - right. pose proof (find_first_match (fun p => re_com (path p)) ports) as H2.
      destruct (find (fun p => re_com (path p)) ports) as [d|].
      + left. split; [ exact H1 | ]. exists d. auto.
      + right. auto. }
  split; [ intros p; apply re_arduino_spec | ].
  split; [ intros p; apply re_com_spec | ].
  pose proof (runs_openPort env cfg w) as H. cbv zeta in H.
  unfold discovery, attempt_trace, chosen_path, is_auto in H.
  split; intros Hauto; rewrite Hauto in H;
    destruct (open_attempt env (n_opens w)); cbn [app] in H;
    do 4 eexists; exact H.
Qed.

End Discovery.

(** A modem on COM1 and an Arduino Uno on COM4: COM4 is chosen. *)
Lemma autoDetectPort_policy_witness :
  str_eqb (SERIAL_PORT (CONFIG no_settings)) (js "auto") = true
  /\ runs busy_twice autoDetectPort (initial 0)
          [Did SerialList (inr [modem; uno])] (initial 0) (js "COM4").
Proof.
  split; [ reflexivity | ].
  destruct (@autoDetectPort_policy busy_twice (CONFIG no_settings) (initial 0))
    as (chosen & Hrun & Hchosen & _).
  cbn [devices busy_twice] in Hchosen.
  assert (E : chosen = js "COM4").
  { destruct Hchosen as [(d & (before & after & Hl & Hd & Hb) & ->) | [(Hn & _) | (Hn & _)]].
    - destruct before as [|x before].
      + inversion Hl; subst. discriminate Hd.
      + inversion Hl as [[Hx Hrest]]. destruct before as [|y before].
        * inversion Hrest; subst. reflexivity.
        * inversion Hrest as [[Hy Hrest']]. destruct before; discriminate Hrest'.
    - inversion Hn as [|? ? _ Hn']. inversion Hn' as [|? ? Hu _]. discriminate Hu.
    - inversion Hn as [|? ? _ Hn']. inversion Hn' as [|? ? Hu _]. discriminate Hu. }
  rewrite E in Hrun. exact Hrun.
Defined.

(* ===================================================================== *)
(** ** Where the process ends *)
(* ===================================================================== *)

Lemma eqeq_shown {X1 X2} (p : X1 = X2) (e1 : outE X1) (e2 : outE X2) :
  eqeq outE p e1 e2 -> shown e1 = shown e2.
Proof. destruct p. cbn. intros ->. reflexivity. Qed.

Lemma pweqeq_at {T} (RR : T -> T -> Prop) {X1 X2} (p : X1 = X2)
      (k1 : X1 -> T) (k2 : X2 -> T) (x1 : X1) :
  pweqeq RR p k1 k2 -> exists x2, RR (k1 x1) (k2 x2).
Proof. destruct p. cbn. intros H. exists x1. apply H. Qed.

(** A run that shows [tr] and exits has shown whatever any equal run
    showed first. *)
Lemma say_halt_prefix {A} (code : Z) (u : itree outE A) : forall pre tr,
  (say tr;; halt code) ≈ (say pre;; u) -> exists tr', tr = pre ++ tr'.
Proof.
  induction pre as [|o pre IH]; intros tr H.
  - exists tr. reflexivity.
  - destruct tr as [|o' tr].
    + cbn in H. rewrite bind_ret_l, bind_vis in H. unfold halt in H.
      apply eqit_inv_Vis_weak in H. destruct H as (p & He & _).
      apply eqeq_shown in He. discriminate He.
    + cbn in H. rewrite !bind_vis in H.
      apply eqit_inv_Vis_weak in H. destruct H as (p & He & Hk).
      apply eqeq_shown in He. cbn in He. inversion He; subst o'.
      destruct (pweqeq_at _ _ _ _ tt Hk) as ([] & Hk').
      destruct (IH tr Hk') as (tr' & ->). exists tr'. reflexivity.
Qed.

Section Exit.

Variable env : Environment.
Variable cfg : Config.

(** [main] prints its banner and goes on to open the port. *)
Lemma main_attempts w :
  exists answer rest,
    exec env (main cfg) w
    ≈ (say (banner cfg ++ discovery env cfg
            ++ [Did (NewSerialPort (chosen_path env cfg) (SERIAL_BAUD cfg)) answer]);;
       rest).
Proof.
  destruct (ensureOpen_attempts env cfg w) as (answer & rest & H).
  exists answer, rest. unfold main.
  assert (Hb : runs env
                 (log Log MsgStarting;;
                  log Log (MsgCfgUrl (API_URL cfg));;
                  log Log (MsgCfgSerial (SERIAL_PORT cfg) (SERIAL_BAUD cfg)))
                 w (banner cfg) w tt) by (run_to_end idtac).
  assert (E : (log Log MsgStarting;;
               log Log (MsgCfgUrl (API_URL cfg));;
               log Log (MsgCfgSerial (SERIAL_PORT cfg) (SERIAL_BAUD cfg));;
               ensureOpen cfg)
              ≈ ((log Log MsgStarting;;
                  log Log (MsgCfgUrl (API_URL cfg));;
                  log Log (MsgCfgSerial (SERIAL_PORT cfg) (SERIAL_BAUD cfg)));;
                 ensureOpen cfg))
    by (rewrite bind_bind; setoid_rewrite bind_bind; reflexivity).
  rewrite E, (exec_after (fun _ => ensureOpen cfg) Hb).
  setoid_rewrite H. rewrite say_say. reflexivity.
Qed.

Lemma main_does_not_exit_first w :
  ~ exits_nonzero_before_connecting (exec env (main cfg) w).
Proof.
  intros (tr & code & _ & Hno & Hrun).
  destruct (main_attempts w) as (answer & rest & H).
  rewrite H in Hrun. symmetry in Hrun. apply say_halt_prefix in Hrun. destruct Hrun as (tr' & ->).
  assert (Hin : In (Did (NewSerialPort (chosen_path env cfg) (SERIAL_BAUD cfg)) answer)
                   (open_attempts
                      ((banner cfg ++ discovery env cfg
                        ++ [Did (NewSerialPort (chosen_path env cfg) (SERIAL_BAUD cfg))
                                answer]) ++ tr'))).
  { apply filter_In. split; [ | reflexivity ].
    apply in_or_app. left. apply in_or_app. right. apply in_or_app. right.
    left. reflexivity. }
  rewrite Hno in Hin. destruct Hin.
Qed.

End Exit.

Ltac exits_step :=
  first
    [ eapply ew_exit; cbn; reflexivity
    | eapply ew_vis; [ cbn; reflexivity | reflexivity | ] ].

Lemma onSIGINT_exits_0 : exits_with 0 onSIGINT.
Proof.
  unfold onSIGINT, log.
  exits_step. intros []. exits_step. intros [sp|].
  - exits_step. intros [|].
    + exits_step. intros []. exits_step.
    + exits_step.
  - exits_step.
Qed.

(** C9, as stated, fails: with [SERIAL_BAUD=fast] the baud rate is [NaN],
    and the program does not exit; it prints its banner and tries to open
    COM7 with that baud rate. *)
Lemma bad_baud_does_not_exit :
  SERIAL_BAUD (CONFIG bad_baud) = NaN
  /\ (exists rest,
        exec all_down (program bad_baud) (initial 0)
        ≈ (say [Did (Console Log MsgStarting) tt;
                Did (Console Log (MsgCfgUrl (js "http://127.0.0.1:8000/telemetry"))) tt;
                Did (Console Log (MsgCfgSerial (js "COM7") NaN)) tt;
                Did (NewSerialPort (js "COM7") NaN) (inr 0%nat)];;
           rest))
  /\ ~ exits_nonzero_before_connecting (exec all_down (program bad_baud) (initial 0)).
Proof.
  split; [ reflexivity | ]. split.
  - eapply (run_for_prefix 12). vm_compute. reflexivity.
  - apply main_does_not_exit_first.
Qed.

Section OnlyExit.

Context {rt : Runtime}.
Variable env : Environment.

(** C9, amended.  The script checks none of its settings.  Whatever they
    are, the program prints its banner and goes on to its first attempt to
    open the port, with the baud rate [parseInt] gave; it does not exit
    before that, and neither [main] nor the handlers of "close", "error",
    "data", unhandled rejections and uncaught exceptions ever reach
    [process.exit].  The handler of SIGINT always ends in
    [process.exit(0)]: that is the only exit, and its code is 0. *)
Theorem only_SIGINT_exits (penv : ProcessEnv) (w : World) :
  let cfg := CONFIG penv in
  (exists answer rest,
     exec env (program penv) w
     ≈ (say (banner cfg ++ discovery env cfg
             ++ [Did (NewSerialPort (chosen_path env cfg) (SERIAL_BAUD cfg)) answer]);;
        rest))
  /\ ~ exits_nonzero_before_connecting (exec env (program penv) w)
  /\ never_exits (program penv)
  /\ never_exits (onClose cfg)
  /\ (forall err, never_exits (onError err))
  /\ (forall line, never_exits (onData cfg line))
  /\ (forall err, never_exits (onUnhandledRejection err))
  /\ (forall err, never_exits (onUncaughtException err))
  /\ exits_with 0 onSIGINT.
Proof.
  intros cfg.
  split; [ apply main_attempts | ].
  split; [ apply main_does_not_exit_first | ].
  split; [ apply never_exits_main | ].
  split; [ apply never_exits_onClose | ].
  split; [ apply never_exits_onError | ].
  split; [ intros line; apply never_exits_onData | ].
  split; [ intros err; unfold onUnhandledRejection; exit_free | ].
  split; [ intros err; unfold onUncaughtException; exit_free | ].
  apply onSIGINT_exits_0.
Qed.

End OnlyExit.

(* ===================================================================== *)
(** ** The scenarios of the specification, run *)
(* ===================================================================== *)

(** The line [{"temp":21.5}], read on 2024-11-03 at 07:00:00.123 UTC
    while the endpoint accepts: one POST, of the record with its two
    reserved fields, and no retry. *)
Example temp_line_is_posted_once :
  runs busy_twice (onData (rt := node) (CONFIG no_settings) temp_line)
       (initial 1730617200123)
       [Did NewDate 1730617200123;
        Did (HttpPost (js "http://127.0.0.1:8000/telemetry")
               (VObj [(js "temp", VNum (js "21.5"));
                      (js "_ingested_at", VStr (js "2024-11-03T07:00:00.123Z"));
                      (js "_source", VStr (js "arduino-serial"))])
               5000 (js "application/json"))
            (Responded 200)]
       (count_post (initial 1730617200123)) tt.
Proof. apply (run_for_runs busy_twice 20). vm_compute. reflexivity. Qed.

(** The line [not json] and then the line [{"temp":21.5}]: one log for
    the first, and the second is posted. *)
Example bad_line_then_good_line :
  runs busy_twice
       (onData (rt := node) (CONFIG no_settings) (js "not json");;
        onData (rt := node) (CONFIG no_settings) temp_line)
       (initial 0)
       [Did (Console Error (MsgInvalidJson (js "not json"))) tt;
        Did NewDate 0;
        Did (HttpPost (js "http://127.0.0.1:8000/telemetry")
               (VObj [(js "temp", VNum (js "21.5"));
                      (js "_ingested_at", VStr (js "1970-01-01T00:00:00.000Z"));
                      (js "_source", VStr (js "arduino-serial"))])
               5000 (js "application/json"))
            (Responded 200)]
       (count_post (initial 0)) tt.
Proof. apply (run_for_runs busy_twice 20). vm_compute. reflexivity. Qed.

(** An endpoint that is down: four POSTs, waits of 5, 10 and 15 seconds,
    and the failure is logged. *)
Example delivery_to_a_dead_endpoint :
  exists tr w',
    runs all_down (onData (rt := node) (CONFIG no_settings) temp_line) (initial 0) tr w' tt
    /\ timeline tr
       = [Posted; Waited 5000; Posted; Waited 10000; Posted; Waited 15000; Posted]
    /\ last tr (Did NewDate 0)
       = Did (Console Error (MsgPostFailed (js "Request failed with status code 503"))) tt
    /\ clock w' = 30000.
Proof.
  eexists. eexists. split; [ apply (run_for_runs all_down 40); vm_compute; reflexivity | ].
  repeat split.
Qed.

(** The port is busy twice: the handlers are attached at the third
    attempt, six seconds in. *)
Example third_attempt_opens :
  exists tr w',
    runs busy_twice (program no_settings) (initial 0) tr w' tt
    /\ timeline tr = [OpenAttempt; Waited 3000; OpenAttempt; Waited 3000; OpenAttempt]
    /\ Disconnected :: state_changes tr
       = [Disconnected; Connecting; Disconnected; Connecting; Disconnected;
          Connecting; Open]
    /\ clock w' = 6000
    /\ g_port w' = Some 2%nat.
Proof.
  eexists. eexists. split; [ apply (run_for_runs busy_twice 100); vm_compute; reflexivity | ].
  repeat split.
Qed.

(* ===================================================================== *)
(** ** More about the data handler *)
(* ===================================================================== *)

Lemma trimStart_blank s : blank s = true -> trimStart s = [].
Proof.
  induction s as [|c s IH]; cbn; [ reflexivity | ].
  intros H. apply andb_true_iff in H. destruct H as [Hc Hs].
  rewrite Hc. apply IH, Hs.
Qed.

Lemma trimStart_blank_app pre s : blank pre = true -> trimStart (pre ++ s) = trimStart s.
Proof.
  induction pre as [|c pre IH]; cbn; [ reflexivity | ].
  intros H. apply andb_true_iff in H. destruct H as [Hc Hs].
  rewrite Hc. apply IH, Hs.
Qed.

Lemma trimStart_app s post :
  trimStart s <> [] -> trimStart (s ++ post) = trimStart s ++ post.
Proof.
  induction s as [|c s IH]; cbn; [ congruence | ].
  destruct (is_white_space c); [ exact IH | reflexivity ].
Qed.

Lemma trimStart_nil s : trimStart s = [] -> blank s = true.
Proof.
  induction s as [|c s IH]; cbn; [ reflexivity | ].
  destruct (is_white_space c); [ exact IH | discriminate ].
Qed.

Lemma blank_app a b : blank (a ++ b) = blank a && blank b.
Proof. apply forallb_app. Qed.

Lemma blank_rev s : blank (rev s) = blank s.
Proof.
  induction s as [|c s IH]; cbn; [ reflexivity | ].
  rewrite blank_app, IH. cbn. rewrite andb_true_r. apply andb_comm.
Qed.

Lemma trimEnd_app_blank s post : blank post = true -> trimEnd (s ++ post) = trimEnd s.
Proof.
  intros H. unfold trimEnd. rewrite rev_app_distr, trimStart_blank_app; [ reflexivity | ].
  rewrite blank_rev. exact H.
Qed.

(** [trim] sees through the white space around a text. *)
Lemma trim_surrounded pre s post :
  blank pre = true -> blank post = true -> trim (pre ++ s ++ post) = trim s.
Proof.
  intros Hpre Hpost. unfold trim. rewrite (trimStart_blank_app pre _ Hpre).
  destruct (trimStart s) as [|c r] eqn:E.
  - rewrite trimStart_blank; [ reflexivity | ].
    rewrite blank_app, Hpost, (trimStart_nil s E). reflexivity.
  - rewrite trimStart_app by congruence. rewrite E.
    apply trimEnd_app_blank, Hpost.
Qed.

Section Lines.

Context {rt : Runtime}.
Variable env : Environment.
Variable cfg : Config.

(** X1.  White space around a line does not count: the carriage return
    that [println] leaves before the delimiter, or indentation, changes
    nothing of what the handler does; and a line of white space only does
    nothing at all: no log, no clock read, no POST. *)
Theorem onData_ignores_surrounding_white_space (pre line post : jsstring) (w : World) :
  blank pre = true ->
  blank post = true ->
  onData cfg (pre ++ line ++ post) = onData cfg line
  /\ runs env (onData cfg (pre ++ post)) w [] w tt.
Proof.
  intros Hpre Hpost. split.
  - unfold onData. rewrite (trim_surrounded pre line post Hpre Hpost). reflexivity.
  - assert (E : trim (pre ++ post) = []).
    { replace (pre ++ post) with (pre ++ [] ++ post) by reflexivity.
      rewrite (trim_surrounded pre [] post Hpre Hpost). reflexivity. }
    unfold onData. rewrite E. cbn. apply runs_ret.
Qed.

End Lines.

(** The line [{"temp":21.5}] as an Arduino sends it, with a carriage
    return at its end. *)
Lemma onData_ignores_surrounding_white_space_witness :
  blank (js "  ") = true
  /\ blank [0x0D%N] = true
  /\ onData (rt := node) (CONFIG no_settings) (js "  " ++ temp_line ++ [0x0D%N])
     = onData (rt := node) (CONFIG no_settings) temp_line.
Proof.
  assert (H1 : blank (js "  ") = true) by reflexivity.
  assert (H2 : blank [0x0D%N] = true) by reflexivity.
  split; [ exact H1 | split; [ exact H2 | ] ].
  exact (proj1 (@onData_ignores_surrounding_white_space node busy_twice
                  (CONFIG no_settings) (js "  ") temp_line [0x0D%N] (initial 0) H1 H2)).
Defined.

(* ===================================================================== *)
(** ** More about deliveries *)
(* ===================================================================== *)

Lemma elapsed_app a b : elapsed (a ++ b) = elapsed a + elapsed b.
Proof.
  induction a as [|x a IH]; [ reflexivity | ].
  change (elapsed ((x :: a) ++ b)) with (Z.max 0 x + elapsed (a ++ b)).
  change (elapsed (x :: a)) with (Z.max 0 x + elapsed a).
  rewrite IH. lia.
Qed.

(** The waits of [j] retries take [T * (1 + ... + j)]. *)
Lemma elapsed_backoff (T : Z) (j : nat) :
  0 <= T ->
  2 * elapsed (List.map (fun k => T * Z.of_nat k) (seq 1 j))
  = T * Z.of_nat j * (Z.of_nat j + 1).
Proof.
  intros HT. induction j as [|j IH]; [ cbn; lia | ].
  rewrite seq_S, List.map_app, elapsed_app.
  change (elapsed (List.map (fun k => T * Z.of_nat k) [(1 + j)%nat]))
    with (Z.max 0 (T * Z.of_nat (1 + j)) + 0).
  rewrite Z.max_r by nia. nia.
Qed.

Section Deliveries.

Context {rt : Runtime}.
Variable env : Environment.
Variable cfg : Config.

(** Every delivery has the same shape: some number [j] of attempts that
    fail, each followed by its wait, and one more attempt, which either
    succeeds or is the last one allowed. *)
Lemma delivery_shape data : forall n r w,
  Z.to_nat r = n ->
  let D := delivery env cfg data n r w in
  let wait k := POST_TIMEOUT_MS cfg * (MAX_POST_RETRIES cfg - r + Z.of_nat k) in
  exists j,
    (j <= n)%nat
    /\ timeline (fst (fst D))
       = flat_map (fun k => [Posted; Waited (wait k)]) (seq 1 j) ++ [Posted]
    /\ sleeps (fst (fst D)) = List.map wait (seq 1 j)
    /\ posts (fst (fst D))
       = List.map (fun k => post_of cfg data (post_attempt env (n_posts w + k)))
                  (seq 0 (S j))
    /\ (forall k, (k < j)%nat ->
          exists err, settle cfg (post_attempt env (n_posts w + k)) = inl err)
    /\ ((snd D = inr tt /\ settle cfg (post_attempt env (n_posts w + j)) = inr tt)
        \/ (j = n /\ exists err,
              snd D = inl err
              /\ settle cfg (post_attempt env (n_posts w + j)) = inl err))
    /\ clock (snd (fst D)) = clock w + elapsed (sleeps (fst (fst D)))
    /\ n_posts (snd (fst D)) = (n_posts w + S j)%nat.
Proof.
  induction n as [|n IH]; intros r w Hr; cbv zeta; cbn [delivery];
    destruct (settle cfg (post_attempt env (n_posts w))) as [err | []] eqn:Hs.
  - exists 0%nat. cbn. rewrite Nat.add_0_r.
    repeat split; try lia; eauto.
  - exists 0%nat. cbn. rewrite Nat.add_0_r.
    repeat split; try lia; eauto.
  - specialize (IH (r - 1) (advance (backoff cfg r) (count_post w)) ltac:(lia)).
    cbv zeta in IH.
    destruct (delivery env cfg data n (r - 1) (advance (backoff cfg r) (count_post w)))
      as [[tr w'] res].
    cbn [fst snd] in *. destruct IH as (j & Hj & T & S & P & F & O & C & N).
    exists (Datatypes.S j). split; [ lia | ]. split; [ | split; [ | split ] ].
    + rewrite flat_map_seq_S. unfold timeline in *. cbn. unfold backoff. do 2 f_equal.
      rewrite T. f_equal. apply flat_map_ext. intros k. do 3 f_equal. lia.
    + rewrite map_seq_S. unfold sleeps in *. cbn. unfold backoff. f_equal.
      rewrite S. apply List.map_ext. intros k. f_equal. lia.
    + rewrite map_seq_S. unfold posts in *. cbn [filter post_of is_post].
      rewrite Nat.add_0_r. f_equal. rewrite P. apply List.map_ext.
      intros k. cbn. do 3 f_equal. lia.
    + split; [ | split; [ | split ] ].
      * intros [|k] Hk.
        -- rewrite Nat.add_0_r. eauto.
        -- destruct (F k ltac:(lia)) as [e He]. exists e. rewrite <- He.
           cbn. do 3 f_equal. lia.
      * cbn [n_posts advance count_post] in O.
        replace (n_posts w + Datatypes.S j)%nat with (Datatypes.S (n_posts w) + j)%nat by lia.
        destruct O as [O | (-> & e & O1 & O2)]; [ left; exact O | right ].
        split; [ reflexivity | eauto ].
      * rewrite C. unfold sleeps, elapsed. cbn. unfold backoff. lia.
      * rewrite N. cbn. lia.
  - exists 0%nat. cbn. rewrite Nat.add_0_r.
    repeat split; try lia; eauto.
Qed.

(** A delivery does not touch the connection. *)
Lemma delivery_keeps_connection data : forall n r w,
  let D := delivery env cfg data n r w in
  g_port (snd (fst D)) = g_port w
  /\ g_parser (snd (fst D)) = g_parser w
  /\ opened (snd (fst D)) = opened w
  /\ n_opens (snd (fst D)) = n_opens w
  /\ fresh (snd (fst D)) = fresh w
  /\ Forall (fun o => is_serial o = false) (fst (fst D)).
Proof.
  induction n as [|n IH]; intros r w; cbv zeta; cbn [delivery];
    destruct (settle cfg (post_attempt env (n_posts w))) as [err | []].
  - cbn. repeat split; auto.
  - cbn. repeat split; auto.
  - specialize (IH (r - 1) (advance (backoff cfg r) (count_post w))). cbv zeta in IH.
    destruct (delivery env cfg data n (r - 1) (advance (backoff cfg r) (count_post w)))
      as [[tr w'] res].
    cbn [fst snd] in *. destruct IH as (A & B & C & D & E & F).
    repeat split; auto.
  - cbn. repeat split; auto.
Qed.

End Deliveries.

Lemma elapsed_backoff_max (T : Z) (j : nat) :
  2 * elapsed (List.map (fun k => T * Z.of_nat k) (seq 1 j))
  = Z.max 0 T * Z.of_nat j * (Z.of_nat j + 1).
Proof.
  destruct (Z_le_gt_dec 0 T) as [HT | HT].
  - rewrite Z.max_r by lia. apply elapsed_backoff. exact HT.
  - rewrite Z.max_l by lia.
    assert (E : forall l, Forall (fun k => (0 <= k)%nat) l ->
                elapsed (List.map (fun k => T * Z.of_nat k) l) = 0).
    { induction l as [|k l IH]; intros Hl; [ reflexivity | ].
      change (elapsed (List.map (fun k => T * Z.of_nat k) (k :: l)))
        with (Z.max 0 (T * Z.of_nat k) + elapsed (List.map (fun k => T * Z.of_nat k) l)).
      inversion Hl; subst. rewrite IH by assumption. rewrite Z.max_l by nia. lia. }
    rewrite E; [ lia | ]. apply Forall_forall. intros. lia.
Qed.

Section DeliveryProperties.

Context {rt : Runtime}.
Variable env : Environment.
Variable cfg : Config.

(** A delivery warns, and leaves the errors to its caller. *)
Lemma delivery_logs_no_error data : forall n r w,
  error_lines (fst (fst (delivery env cfg data n r w))) = [].
Proof.
  induction n as [|n IH]; intros r w; cbn [delivery];
    destruct (settle cfg (post_attempt env (n_posts w))) as [err | []];
    try reflexivity.
  specialize (IH (r - 1) (advance (backoff cfg r) (count_post w))).
  destruct (delivery env cfg data n (r - 1) (advance (backoff cfg r) (count_post w)))
    as [[tr w'] res].
  cbn [fst snd] in *. exact IH.
Qed.

Lemma error_lines_app a b : error_lines (a ++ b) = error_lines a ++ error_lines b.
Proof. apply flat_map_app. Qed.

Lemma timeline_app a b : timeline (a ++ b) = timeline a ++ timeline b.
Proof. apply flat_map_app. Qed.

Lemma sleeps_app a b : sleeps (a ++ b) = sleeps a ++ sleeps b.
Proof. apply flat_map_app. Qed.

Lemma verdict_silent r :
  timeline (verdict r) = [] /\ sleeps (verdict r) = []
  /\ Forall (fun o => is_serial o = false) (verdict r).
Proof. destruct r as [e | []]; cbn; repeat split; auto. Qed.

(** X2.  A delivery recovers.  When the first [j] attempts fail, with
    [j] no more than [MAX_POST_RETRIES], and the next one is accepted,
    the data handler makes exactly [j + 1] POSTs, all of the same record
    (stamped once, before the first attempt), waits
    [POST_TIMEOUT_MS * k] after the k-th failure, prints no error and
    returns; the time that passed is the sum of the waits,
    [POST_TIMEOUT_MS * j * (j + 1) / 2]. *)
Theorem delivery_recovers_after_failures
        (j : nat) (line : jsstring) (payload : value) (w : World) :
  Z.of_nat j <= MAX_POST_RETRIES cfg ->
  (forall k, (k < j)%nat ->
     exists err, settle cfg (post_attempt env (n_posts w + k)) = inl err) ->
  settle cfg (post_attempt env (n_posts w + j)) = inr tt ->
  is_empty (trim line) = false ->
  JSON_parse (trim line) = Some payload ->
  exists tr w',
    runs env (onData cfg line) w tr w' tt
    /\ timeline tr
       = flat_map (fun k => [Posted; Waited (POST_TIMEOUT_MS cfg * Z.of_nat k)]) (seq 1 j)
         ++ [Posted]
    /\ posts tr
       = List.map (fun k => post_of cfg (enriched payload (toISOString (clock w)))
                                    (post_attempt env (n_posts w + k)))
                  (seq 0 (S j))
    /\ error_lines tr = []
    /\ clock w' = clock w + elapsed (sleeps tr)
    /\ 2 * (clock w' - clock w)
       = Z.max 0 (POST_TIMEOUT_MS cfg) * Z.of_nat j * (Z.of_nat j + 1)
    /\ n_posts w' = (n_posts w + S j)%nat.
Proof.
  intros Hj Hfail Hok H1 H2.
  pose proof (@runs_onData_valid rt env cfg line payload w H1 H2) as Hrun.
  cbv zeta in Hrun.
  pose proof (@delivery_shape rt env cfg (enriched payload (toISOString (clock w)))
                (Z.to_nat (MAX_POST_RETRIES cfg)) (MAX_POST_RETRIES cfg) w eq_refl) as Hs.
  pose proof (@delivery_logs_no_error (enriched payload (toISOString (clock w)))
                (Z.to_nat (MAX_POST_RETRIES cfg)) (MAX_POST_RETRIES cfg) w) as He.
  cbv zeta in Hs.
  destruct (delivery env cfg (enriched payload (toISOString (clock w)))
              (Z.to_nat (MAX_POST_RETRIES cfg)) (MAX_POST_RETRIES cfg) w)
    as [[tr w'] res].
  cbn [fst snd] in *.
  destruct Hs as (j' & Hj' & T & S & P & F & O & C & N).
  assert (j' = j) as ->.
  { destruct (Nat.lt_trichotomy j' j) as [L | [E | G]]; [ | exact E | ].
    - destruct (Hfail j' L) as [e He'].
      destruct O as [[_ O] | (-> & _)]; [ congruence | lia ].
    - destruct (F j G) as [e He']. congruence. }
  assert (res = inr tt) as ->.
  { destruct O as [[O _] | (_ & e & _ & O)]; [ exact O | congruence ]. }
  assert (W : List.map (fun k => POST_TIMEOUT_MS cfg
                                 * (MAX_POST_RETRIES cfg - MAX_POST_RETRIES cfg + Z.of_nat k))
                       (seq 1 j)
              = List.map (fun k => POST_TIMEOUT_MS cfg * Z.of_nat k) (seq 1 j)).
  { apply List.map_ext. intros k. f_equal. lia. }
  exists (Did NewDate (clock w) :: tr ++ []), w'.
  split; [ exact Hrun | ]. rewrite app_nil_r.
  assert (Sl : sleeps (Did NewDate (clock w) :: tr) = sleeps tr) by reflexivity.
  split; [ | split; [ | split; [ | split; [ | split ] ] ] ].
  - change (timeline (Did NewDate (clock w) :: tr)) with (timeline tr). rewrite T.
    f_equal. apply flat_map_ext. intros k. do 3 f_equal. lia.
  - change (posts (Did NewDate (clock w) :: tr)) with (posts tr). exact P.
  - change (error_lines (Did NewDate (clock w) :: tr)) with (error_lines tr). exact He.
  - rewrite Sl. exact C.
  - rewrite C, S, W. rewrite <- elapsed_backoff_max. lia.
  - exact N.
Qed.

(** X3.  Every delivery ends, whatever the endpoint does, within its
    budget: [postWithRetries(data, MAX_POST_RETRIES)] returns after
    [j + 1] POSTs for some [j] of at most [MAX_POST_RETRIES], having
    waited [POST_TIMEOUT_MS * k] after the k-th failure; it either
    resolves, or has used every retry and throws; and the time it took in
    waits is [POST_TIMEOUT_MS * j * (j + 1) / 2] (nothing, were the
    timeout negative). *)
Theorem postWithRetries_ends_within_budget (data : value) (w : World) :
  exists tr w' res (j : nat),
    runs env (postWithRetries cfg data (MAX_POST_RETRIES cfg)) w tr w' res
    /\ (j <= Z.to_nat (MAX_POST_RETRIES cfg))%nat
    /\ timeline tr
       = flat_map (fun k => [Posted; Waited (POST_TIMEOUT_MS cfg * Z.of_nat k)]) (seq 1 j)
         ++ [Posted]
    /\ List.length (posts tr) = S j
    /\ (res = inr tt
        \/ (j = Z.to_nat (MAX_POST_RETRIES cfg) /\ exists err, res = inl err))
    /\ 2 * (clock w' - clock w)
       = Z.max 0 (POST_TIMEOUT_MS cfg) * Z.of_nat j * (Z.of_nat j + 1).
Proof.
  pose proof (@runs_postWithRetries rt env cfg data
                (Z.to_nat (MAX_POST_RETRIES cfg)) (MAX_POST_RETRIES cfg) w eq_refl) as Hrun.
  pose proof (@delivery_shape rt env cfg data
                (Z.to_nat (MAX_POST_RETRIES cfg)) (MAX_POST_RETRIES cfg) w eq_refl) as Hs.
  cbv zeta in Hs.
  destruct (delivery env cfg data
              (Z.to_nat (MAX_POST_RETRIES cfg)) (MAX_POST_RETRIES cfg) w)
    as [[tr w'] res].
  cbn [fst snd] in *.
  destruct Hs as (j & Hj & T & S & P & F & O & C & N).
  assert (W : List.map (fun k => POST_TIMEOUT_MS cfg
                                 * (MAX_POST_RETRIES cfg - MAX_POST_RETRIES cfg + Z.of_nat k))
                       (seq 1 j)
              = List.map (fun k => POST_TIMEOUT_MS cfg * Z.of_nat k) (seq 1 j)).
  { apply List.map_ext. intros k. f_equal. lia. }
  exists tr, w', res, j.
  split; [ exact Hrun | ]. split; [ exact Hj | ].
  split; [ | split; [ | split ] ].
  - rewrite T. f_equal. apply flat_map_ext. intros k. do 3 f_equal. lia.
  - rewrite P, length_map, length_seq. reflexivity.
  - destruct O as [[O _] | (E & e & O & _)]; [ left; exact O | right; eauto ].
  - rewrite C, S, W. rewrite <- elapsed_backoff_max. lia.
Qed.

(** X4.  The data handler leaves the connection alone.  Whatever the
    line and whatever the endpoint does, handling a line returns, and it
    neither reads nor changes the port, the parser or the set of open
    ports: a delivery that fails never closes or reopens the serial
    port. *)
Theorem onData_leaves_the_connection_alone (line : jsstring) (w : World) :
  exists tr w',
    runs env (onData cfg line) w tr w' tt
    /\ Forall (fun o => is_serial o = false) tr
    /\ g_port w' = g_port w
    /\ g_parser w' = g_parser w
    /\ opened w' = opened w
    /\ n_opens w' = n_opens w
    /\ fresh w' = fresh w.
Proof.
  destruct (is_empty (trim line)) eqn:H1.
  - exists [], w. rewrite (onData_blank cfg line H1).
    split; [ apply runs_ret | repeat split; auto ].
  - destruct (JSON_parse (trim line)) as [payload|] eqn:H2.
    + pose proof (@runs_onData_valid rt env cfg line payload w H1 H2) as Hrun.
      cbv zeta in Hrun.
      pose proof (@delivery_keeps_connection rt env cfg
                    (enriched payload (toISOString (clock w)))
                    (Z.to_nat (MAX_POST_RETRIES cfg)) (MAX_POST_RETRIES cfg) w) as Hk.
      cbv zeta in Hk.
      destruct (delivery env cfg (enriched payload (toISOString (clock w)))
                  (Z.to_nat (MAX_POST_RETRIES cfg)) (MAX_POST_RETRIES cfg) w)
        as [[tr w'] res].
      cbn [fst snd] in *. destruct Hk as (A & B & C & D & E & F).
      eexists. exists w'. split; [ exact Hrun | ].
      repeat split; auto.
      constructor; [ reflexivity | ].
      apply Forall_app. split; [ exact F | apply verdict_silent ].
    + exists [Did (Console Error (MsgInvalidJson (trim line))) tt], w.
      rewrite (onData_invalid cfg line H1 H2).
      split; [ unfold log; apply runs_trigger; reflexivity | repeat split; auto ].
Qed.

End DeliveryProperties.

(** Defaults; the endpoint of [flaky] fails twice and then accepts. *)
Lemma delivery_recovers_after_failures_witness :
  exists tr w',
    runs flaky (onData (rt := node) (CONFIG no_settings) temp_line) (initial 0) tr w' tt
    /\ timeline tr = [Posted; Waited 5000; Posted; Waited 10000; Posted]
    /\ error_lines tr = []
    /\ clock w' = 15000.
Proof.
  assert (Hj : Z.of_nat 2 <= MAX_POST_RETRIES (CONFIG no_settings)) by (vm_compute; discriminate).
  assert (Hf : forall k, (k < 2)%nat ->
             exists err, settle (rt := node) (CONFIG no_settings)
                                (post_attempt flaky (n_posts (initial 0) + k)) = inl err).
  { intros [|[|k]] Hk; [ eexists; reflexivity | eexists; reflexivity | lia ]. }
  assert (Hok : settle (rt := node) (CONFIG no_settings)
                       (post_attempt flaky (n_posts (initial 0) + 2)) = inr tt)
    by reflexivity.
  assert (H1 : is_empty (trim temp_line) = false) by reflexivity.
  assert (H2 : JSON_parse (Runtime := node) (trim temp_line) = Some temp_record)
    by (vm_compute; reflexivity).
  destruct (@delivery_recovers_after_failures node flaky (CONFIG no_settings)
              2 temp_line temp_record (initial 0) Hj Hf Hok H1 H2)
    as (tr & w' & R & T & P & E & C & C2 & N).
  exists tr, w'. split; [ exact R | ]. split; [ exact T | ]. split; [ exact E | ].
  change (clock (initial 0)) with 0 in C2.
  change (Z.max 0 (POST_TIMEOUT_MS (CONFIG no_settings)) * Z.of_nat 2 * (Z.of_nat 2 + 1))
    with 30000 in C2.
  lia.
Defined.

(* ===================================================================== *)
(** ** More about the supervisor *)
(* ===================================================================== *)

Section SupervisorProperties.

Variable env : Environment.
Variable cfg : Config.

Lemma discovery_quiet :
  posts (discovery env cfg) = []
  /\ closes (discovery env cfg) = []
  /\ paths_tried (discovery env cfg) = []
  /\ List.length (filter is_listing (discovery env cfg))
     = (if is_auto cfg then 1 else 0)%nat.
Proof. unfold discovery. destruct (is_auto cfg); cbn; auto. Qed.

(** A turn that fails tries the chosen path once, and touches neither
    the globals, nor the open ports, nor the endpoint. *)
Lemma failed_turn_quiet w :
  open_fails (open_attempt env (n_opens w)) = true ->
  paths_tried (turn_trace env cfg w) = [chosen_path env cfg]
  /\ List.length (filter is_listing (turn_trace env cfg w))
     = (if is_auto cfg then 1 else 0)%nat
  /\ posts (turn_trace env cfg w) = []
  /\ closes (turn_trace env cfg w) = []
  /\ g_port (turn_world env cfg w) = g_port w
  /\ g_parser (turn_world env cfg w) = g_parser w
  /\ opened (turn_world env cfg w) = opened w
  /\ n_posts (turn_world env cfg w) = n_posts w.
Proof.
  intros Hf. destruct discovery_quiet as (P & C & T & L).
  unfold turn_trace, turn_world, paths_tried, posts, closes in *.
  rewrite !flat_map_app, !filter_app, !length_app, P, C, T, L.
  destruct (open_attempt env (n_opens w)); try discriminate; cbn;
    rewrite Nat.add_0_r; repeat split; auto.
Qed.

Lemma failed_turns_quiet n : forall w,
  (forall k, (k < n)%nat -> open_fails (open_attempt env (n_opens w + k)) = true) ->
  paths_tried (turns_trace env cfg n w) = repeat (chosen_path env cfg) n
  /\ List.length (filter is_listing (turns_trace env cfg n w))
     = (if is_auto cfg then n else 0)%nat
  /\ posts (turns_trace env cfg n w) = []
  /\ closes (turns_trace env cfg n w) = []
  /\ g_port (after_turns env cfg n w) = g_port w
  /\ g_parser (after_turns env cfg n w) = g_parser w
  /\ opened (after_turns env cfg n w) = opened w
  /\ n_posts (after_turns env cfg n w) = n_posts w.
Proof.
  induction n as [|n IH]; intros w Hf.
  - cbn. destruct (is_auto cfg); repeat split; auto.
  - cbn [turns_trace after_turns repeat].
    destruct (failed_turn_quiet w) as (T1 & L1 & P1 & C1 & A1 & B1 & O1 & N1).
    { specialize (Hf 0%nat). rewrite Nat.add_0_r in Hf. apply Hf. lia. }
    destruct (IH (turn_world env cfg w)) as (T2 & L2 & P2 & C2 & A2 & B2 & O2 & N2).
    { intros k Hk. rewrite n_opens_turn.
      replace (S (n_opens w) + k)%nat with (n_opens w + S k)%nat by lia.
      apply Hf. lia. }
    unfold paths_tried, posts, closes in *.
    rewrite !flat_map_app, !filter_app, !length_app, T1, T2, L1, L2, P1, P2, C1, C2,
      A2, B2, O2, N2.
    repeat split; auto. destruct (is_auto cfg); reflexivity.
Qed.

Lemma fresh_turn w : (fresh w <= fresh (turn_world env cfg w))%nat.
Proof.
  unfold turn_world. destruct (open_attempt env (n_opens w)); cbn; lia.
Qed.

Lemma fresh_after n : forall w, (fresh w <= fresh (after_turns env cfg n w))%nat.
Proof.
  induction n as [|n IH]; intros w; cbn [after_turns]; [ lia | ].
  specialize (IH (turn_world env cfg w)). pose proof (fresh_turn w). lia.
Qed.

(** The turn that opens the port, with what it wires. *)
Lemma opening_turn_wires w :
  open_attempt env (n_opens w) = Opens ->
  filter is_wiring (turn_trace env cfg w)
  = [Did (Pipe (fresh w) (LINE_DELIMITER cfg)) (S (fresh w));
     Did (On (fresh w) EvClose) tt;
     Did (On (fresh w) EvError) tt;
     Did (On (S (fresh w)) EvData) tt]
  /\ posts (turn_trace env cfg w) = []
  /\ closes (turn_trace env cfg w) = []
  /\ is_open (fresh w) (turn_world env cfg w) = true
  /\ n_posts (turn_world env cfg w) = n_posts w.
Proof.
  intros Ho. destruct discovery_quiet as (P & C & T & L).
  unfold turn_trace, turn_world, posts, closes in *.
  rewrite !flat_map_app, !filter_app, P, C, wiring_discovery, Ho. cbn.
  unfold is_open. cbn. rewrite Nat.eqb_refl. repeat split; auto.
Qed.


(** X6.  The handler of "close" reconnects.  It logs, waits the reconnect
    delay and opens the port again: when the next [N] attempts fail and
    the one after them succeeds it returns after [N + 1] waits of
    [CONNECT_RETRY_MS], with [port] a new object, open, [parser] a new
    parser, and the three handlers attached once, to these new objects.
    It sends nothing to the endpoint. *)
Theorem onClose_reconnects_to_a_new_port (w : World) (N : nat) :
  (forall k, (k < N)%nat -> open_fails (open_attempt env (n_opens w + k)) = true) ->
  open_attempt env (n_opens w + N) = Opens ->
  exists tr w' h,
    runs env (onClose cfg) w tr w' tt
    /\ timeline tr
       = Waited (CONNECT_RETRY_MS cfg)
         :: concat (repeat [OpenAttempt; Waited (CONNECT_RETRY_MS cfg)] N) ++ [OpenAttempt]
    /\ clock w' = clock w + (Z.of_nat N + 1) * Z.max 0 (CONNECT_RETRY_MS cfg)
    /\ (fresh w <= h)%nat
    /\ g_port w' = Some h
    /\ g_parser w' = Some (S h)
    /\ is_open h w' = true
    /\ filter is_wiring tr
       = [Did (Pipe h (LINE_DELIMITER cfg)) (S h);
          Did (On h EvClose) tt;
          Did (On h EvError) tt;
          Did (On (S h) EvData) tt]
    /\ posts tr = []
    /\ n_posts w' = n_posts w.
Proof.
  intros Hfail Hopen.
  set (w0 := advance (CONNECT_RETRY_MS cfg) w).
  set (wN := after_turns env cfg N w0).
  assert (Hfail0 : forall k, (k < N)%nat ->
             open_fails (open_attempt env (n_opens w0 + k)) = true) by exact Hfail.
  assert (HwN : open_attempt env (n_opens wN) = Opens).
  { unfold wN. rewrite n_opens_after. exact Hopen. }
  destruct (@failed_turns env cfg N w0 Hfail0) as (T1 & _ & W1 & C1). fold wN in C1.
  destruct (@failed_turns_quiet N w0 Hfail0) as (_ & _ & P1 & _ & _ & _ & _ & N1).
  fold wN in N1.
  destruct (@opening_turn env cfg wN HwN) as (T2 & _ & C2 & _ & G2 & Q2 & _).
  destruct (@opening_turn_wires wN HwN) as (W2 & P2 & _ & O2 & N2).
  exists ([Did (Console Error MsgPortClosed) tt; Did (Sleep (CONNECT_RETRY_MS cfg)) tt]
          ++ turns_trace env cfg N w0 ++ turn_trace env cfg wN),
         (turn_world env cfg wN), (fresh wN).
  split; [ | split; [ | split; [ | split; [ | split; [ | split; [ | split;
    [ | split; [ | split ] ] ] ] ] ] ] ].
  - unfold runs. rewrite onClose_reconnects. fold w0.
    pose proof (@ensureOpen_retries_n env cfg N w0 Hfail0) as Hn. fold wN in Hn.
    pose proof (@ensureOpen_opens env cfg wN HwN) as H. unfold runs in H.
    setoid_rewrite Hn. setoid_rewrite H. say_eq.
  - unfold timeline in *. rewrite !flat_map_app, T1, T2. reflexivity.
  - rewrite C2, C1. unfold w0. cbn. lia.
  - unfold wN. pose proof (fresh_after N w0). unfold w0 in *. cbn in *. lia.
  - exact G2.
  - exact Q2.
  - exact O2.
  - rewrite !filter_app, W1, W2. reflexivity.
  - unfold posts in *. rewrite !filter_app, P1, P2. reflexivity.
  - rewrite N2, N1. reflexivity.
Qed.

End SupervisorProperties.


(** The port is busy twice after it has closed: the third attempt opens
    it, nine seconds after the close, as the new object 2 with parser 3. *)
Lemma onClose_reconnects_to_a_new_port_witness :
  (forall k, (k < 2)%nat ->
     open_fails (open_attempt busy_twice (n_opens (initial 0) + k)) = true)
  /\ open_attempt busy_twice (n_opens (initial 0) + 2) = Opens
  /\ exists tr w',
       runs busy_twice (onClose (CONFIG no_settings)) (initial 0) tr w' tt
       /\ timeline tr
          = [Waited 3000; OpenAttempt; Waited 3000; OpenAttempt; Waited 3000; OpenAttempt]
       /\ clock w' = 9000.
Proof.
  assert (H1 : forall k, (k < 2)%nat ->
     open_fails (open_attempt busy_twice (n_opens (initial 0) + k)) = true).
  { intros [|[|k]] Hk; [ reflexivity | reflexivity | lia ]. }
  assert (H2 : open_attempt busy_twice (n_opens (initial 0) + 2) = Opens)
    by reflexivity.
  split; [ exact H1 | split; [ exact H2 | ] ].
  destruct (@onClose_reconnects_to_a_new_port busy_twice (CONFIG no_settings)
              (initial 0) 2 H1 H2)
    as (tr & w' & h & R & T & C & _).
  exists tr, w'. split; [ exact R | ]. split; [ exact T | exact C ].
Defined.

(* ===================================================================== *)
(** ** Errors on the port, and the end of the process *)
(* ===================================================================== *)


Section Shutdown.

Variable env : Environment.
Variable cfg : Config.










End Shutdown.


(* ===================================================================== *)
(** ** The baud rate in [CONFIG] *)
(* ===================================================================== *)

Lemma js_cons (c : ascii) (s : string) : js (String c s) = N_of_ascii c :: js s.
Proof. reflexivity. Qed.

(** The digits of a numeral, read with a positive number already read. *)
Lemma digits_value_acc (d : Decimal.uint) : forall p : positive,
  fold_left (fun acc c => 10 * acc + digit_value c)
            (js (NilEmpty.string_of_uint d)) (Z.pos p)
  = Z.pos (Pos.of_uint_acc d p).
Proof.
  induction d; intros p; cbn [NilEmpty.string_of_uint Pos.of_uint_acc];
    [ reflexivity | rewrite js_cons; cbn [fold_left]; rewrite <- IHd; f_equal;
                    unfold digit_value;
                    match goal with
                    | |- context [Z.of_N ?x] =>
                        let v := eval vm_compute in (Z.of_N x) in
                        change (Z.of_N x) with v
                    end; lia .. ].
Qed.

Lemma digits_value_of_uint (d : Decimal.uint) :
  digits_value (js (NilEmpty.string_of_uint d)) = Z.of_N (Pos.of_uint d).
Proof.
  unfold digits_value.
  induction d; cbn [NilEmpty.string_of_uint Pos.of_uint];
    [ reflexivity
    | rewrite js_cons; cbn [fold_left]; exact IHd
    | rewrite js_cons; cbn [fold_left];
      change (Z.of_N (N.pos ?q)) with (Z.pos q);
      rewrite <- digits_value_acc; f_equal .. ].
Qed.

Lemma decimal_nil_empty (n : N) : decimal n = js (NilEmpty.string_of_uint (N.to_uint n)).
Proof.
  unfold decimal, NilZero.string_of_uint.
  pose proof (to_uint_nonnil n) as H.
  destruct (N.to_uint n); [ contradiction | reflexivity .. ].
Qed.

(** Reading back what [decimal] wrote. *)
Lemma digits_value_decimal (n : N) : digits_value (decimal n) = Z.of_N n.
Proof.
  rewrite decimal_nil_empty, digits_value_of_uint.
  change (Pos.of_uint (N.to_uint n)) with (N.of_uint (N.to_uint n)).
  rewrite DecimalN.Unsigned.of_to. reflexivity.
Qed.

Lemma take_digits_app (ds rest : jsstring) :
  forallb is_digit ds = true -> starts_with_digit rest = false ->
  take_digits (ds ++ rest) = ds.
Proof.
  intros Hd Hr. induction ds as [|c ds IH]; cbn [take_digits app forallb] in *.
  - destruct rest as [|c rest]; [ reflexivity | ].
    cbn [take_digits starts_with_digit] in *. rewrite Hr. reflexivity.
  - apply andb_true_iff in Hd. destruct Hd as [Hc Hd].
    rewrite Hc, (IH Hd). reflexivity.
Qed.

Lemma digit_is_plain (c : code_unit) :
  is_digit c = true ->
  is_white_space c = false /\ (c =? 0x2D)%N = false /\ (c =? 0x2B)%N = false.
Proof.
  unfold is_digit, is_white_space. intros H.
  apply andb_true_iff in H. destruct H as [H1 H2].
  apply N.leb_le in H1. apply N.leb_le in H2.
  repeat match goal with
         | |- context [ (c =? ?k)%N ] =>
             let E := fresh in
             assert (E : (c =? k)%N = false) by (apply N.eqb_neq; lia);
             rewrite E; clear E
         end.
  assert (E : (0x2000 <=? c)%N = false) by (apply N.leb_gt; lia).
  rewrite E. auto.
Qed.

Lemma decimal_starts_with_digit (n : N) :
  exists c ds, decimal n = c :: ds /\ is_digit c = true.
Proof.
  pose proof (decimal_digits n) as H. rewrite decimal_nil_empty in *.
  pose proof (to_uint_nonnil n) as Hn.
  destruct (N.to_uint n); [ contradiction | .. ];
    cbn [NilEmpty.string_of_uint] in *; rewrite js_cons in *;
    eexists; eexists; (split; [ reflexivity | reflexivity ]).
Qed.

(** [parseInt] reads a numeral back, whatever white space comes before
    it and whatever text that is no digit comes after. *)
Lemma parseInt_decimal (ws rest : jsstring) (n : N) :
  blank ws = true -> starts_with_digit rest = false ->
  parseInt (ws ++ decimal n ++ rest) = Num (Z.of_N n).
Proof.
  intros Hws Hrest. unfold parseInt.
  rewrite (trimStart_blank_app ws _ Hws).
  destruct (decimal_starts_with_digit n) as (c & ds & E & Hc).
  destruct (digit_is_plain c Hc) as (W & M & P).
  assert (T : trimStart (decimal n ++ rest) = decimal n ++ rest).
  { rewrite E. cbn. rewrite W. reflexivity. }
  rewrite T. clear T.
  remember (decimal n ++ rest) as s eqn:Es.
  destruct s as [|c0 r0]; [ rewrite E in Es; discriminate | ].
  assert (c0 = c) as -> by (rewrite E in Es; inversion Es; reflexivity).
  rewrite M, P, Es, (take_digits_app _ _ (decimal_digits n) Hrest).
  pose proof (digits_value_decimal n) as V.
  destruct (decimal n); [ discriminate | ].
  rewrite V. f_equal. lia.
Qed.

(** X10.  [SERIAL_BAUD] is read back as written.  When the variable
    holds the decimal numeral of [n] (up to 2^53, where JavaScript numbers
    are exact), perhaps after white space and before text that does not
    go on with a digit, the baud rate in [CONFIG] is [n], and it is the
    number the program passes on when it first tries to open the port. *)
Theorem SERIAL_BAUD_is_read_back (penv : ProcessEnv) (ws rest : jsstring) (n : N) :
  env_SERIAL_BAUD penv = Some (ws ++ decimal n ++ rest) ->
  blank ws = true ->
  starts_with_digit rest = false ->
  (n <= 2 ^ 53)%N ->
  SERIAL_BAUD (CONFIG penv) = Num (Z.of_N n)
  /\ forall (env : Environment) (w : World),
       exists p answer rest',
         exec env (program penv) w
         ≈ (say (banner (CONFIG penv) ++ discovery env (CONFIG penv)
                 ++ [Did (NewSerialPort p (Num (Z.of_N n))) answer]);;
            rest').
Proof.
  intros He Hws Hrest _.
  assert (B : SERIAL_BAUD (CONFIG penv) = Num (Z.of_N n)).
  { unfold CONFIG. cbn [SERIAL_BAUD]. rewrite He. unfold or_default.
    destruct (decimal_starts_with_digit n) as (c & ds & E & _).
    assert (N : is_empty (ws ++ decimal n ++ rest) = false).
    { rewrite E. destruct ws; reflexivity. }
    rewrite N. apply parseInt_decimal; assumption. }
  split; [ exact B | ].
  intros env w. destruct (main_attempts env (CONFIG penv) w) as (answer & rest' & H).
  exists (chosen_path env (CONFIG penv)), answer, rest'.
  unfold program. rewrite <- B. exact H.
Qed.

(** [SERIAL_BAUD= 9600 baud] *)
Lemma SERIAL_BAUD_is_read_back_witness :
  SERIAL_BAUD (CONFIG {| env_SERIAL_PORT := None;
                         env_SERIAL_BAUD := Some (js " 9600 baud");
                         env_API_URL := None |})
  = Num 9600.
Proof.
  assert (H1 : env_SERIAL_BAUD {| env_SERIAL_PORT := None;
                                  env_SERIAL_BAUD := Some (js " 9600 baud");
                                  env_API_URL := None |}
               = Some (js " " ++ decimal 9600 ++ js " baud")) by reflexivity.
  assert (H2 : blank (js " ") = true) by reflexivity.
  assert (H3 : starts_with_digit (js " baud") = false) by reflexivity.
  assert (H4 : (9600 <= 2 ^ 53)%N) by (vm_compute; discriminate).
  exact (proj1 (@SERIAL_BAUD_is_read_back _ (js " ") (js " baud") 9600 H1 H2 H3 H4)).
Defined.
